(** * minspritz: the Spritz sponge of src/minspritz.c, embedded in Rocq

    The C program keeps one [struct minspritz_s] and passes a pointer to it
    through every function.  Here each C function becomes a Rocq function
    from the old contents of the struct to the new ones (explicit state
    passing); a function that also returns a byte or a buffer returns a pair.

    Every [uint8_t] is a [Z]; the truncation that C performs when an [int]
    result is assigned to a [uint8_t] lvalue is the explicit [u8].  The array
    [S] is a [list Z], read with [rd] and written with [wr]. *)

From Stdlib Require Import ZArith Lia List Ascii.
From stdpp Require Import base tactics option list list_numbers.

Local Open Scope Z_scope.

(** ** Constants and macros *)

(** [#define N 256] *)
Definition N : Z := 256.

(** [#define LOW(b) (b&0x0f)] *)
Definition LOW (b : Z) : Z := Z.land b 15.

(** [#define HIGH(b) ((b>>4)&0x0f)] *)
Definition HIGH (b : Z) : Z := Z.land (Z.shiftr b 4) 15.

(** Conversion of an [int] value to [uint8_t] on assignment. *)
Definition u8 (x : Z) : Z := x mod 256.

(** ** Arrays

    [rd l p] is the C expression [l[p]] and [wr l p x] the assignment
    [l[p] = x].  An access outside the array is undefined behaviour in C; the
    model reads 0 and writes nothing there.  The functions below index [S],
    of 256 cells, modulo 256, by a byte, or by 128 plus a nibble; the input
    and output arrays come with their lengths. *)

Definition rd (l : list Z) (p : Z) : Z := default 0 (l !! Z.to_nat p).

Definition wr (l : list Z) (p : Z) (x : Z) : list Z := <[Z.to_nat p := x]> l.

(** The three statements [temp = l[p]; l[p] = l[p']; l[p'] = temp]. *)
Definition swap (l : list Z) (p p' : Z) : list Z :=
  let temp := rd l p in
  let l := wr l p (rd l p') in
  wr l p' temp.

(** [l'] is [l] with the contents of the cells [p] and [p'] exchanged and
    every other cell as it was. *)
Definition exchanged (l l' : list Z) (p p' : Z) : Prop :=
  length l' = length l /\
  forall c, 0 <= c < Z.of_nat (length l) ->
    rd l' c = if decide (c = p') then rd l p
              else if decide (c = p) then rd l p' else rd l c.

(** ** Loops

    [for (v = 0; v < bound; v++) body] : the body runs for v = 0, 1, ...,
    bound-1 in this order, and not at all when [bound <= 0]. *)

Definition for_loop {A : Type} (bound : Z) (body : Z -> A -> A) (s : A) : A :=
  fold_left (fun acc v => body v acc) (seqZ 0 bound) s.

(** ** The state structure

    [struct minspritz_s { uint8_t i, j, k, z, a, w; uint8_t S[N]; }].
    The field [x] of the C struct is the projection [q_x], as in [q->x]. *)

Record minspritz_s : Type := mk_state {
  q_i : Z;
  q_j : Z;
  q_k : Z;
  q_z : Z;
  q_a : Z;
  q_w : Z;
  q_S : list Z
}.

Definition set_i (v : Z) (q : minspritz_s) : minspritz_s :=
  mk_state v (q_j q) (q_k q) (q_z q) (q_a q) (q_w q) (q_S q).
Definition set_j (v : Z) (q : minspritz_s) : minspritz_s :=
  mk_state (q_i q) v (q_k q) (q_z q) (q_a q) (q_w q) (q_S q).
Definition set_k (v : Z) (q : minspritz_s) : minspritz_s :=
  mk_state (q_i q) (q_j q) v (q_z q) (q_a q) (q_w q) (q_S q).
Definition set_z (v : Z) (q : minspritz_s) : minspritz_s :=
  mk_state (q_i q) (q_j q) (q_k q) v (q_a q) (q_w q) (q_S q).
Definition set_a (v : Z) (q : minspritz_s) : minspritz_s :=
  mk_state (q_i q) (q_j q) (q_k q) (q_z q) v (q_w q) (q_S q).
Definition set_w (v : Z) (q : minspritz_s) : minspritz_s :=
  mk_state (q_i q) (q_j q) (q_k q) (q_z q) (q_a q) v (q_S q).
Definition set_S (l : list Z) (q : minspritz_s) : minspritz_s :=
  mk_state (q_i q) (q_j q) (q_k q) (q_z q) (q_a q) (q_w q) l.

(** The cursor triple (i, j, k). *)
Definition ijk (q : minspritz_s) : Z * Z * Z := (q_i q, q_j q, q_k q).

(** The values of a [uint8_t]. *)
Definition byte (x : Z) : Prop := 0 <= x < 256.

(** ** The functions of minspritz.c *)

Module Spritz.

(** [initialise_state]: overwrites every field of the struct it is given. *)
Definition initialise_state (q : minspritz_s) : minspritz_s :=
  let q := set_i 0 q in
  let q := set_j 0 q in
  let q := set_k 0 q in
  let q := set_z 0 q in
  let q := set_a 0 q in
  let q := set_w 1 q in
  for_loop N (fun v q => set_S (wr (q_S q) v (u8 v)) q) q.

(** [update] *)
Definition update (q : minspritz_s) : minspritz_s :=
  let q := set_i (u8 (q_i q + q_w q)) q in
  let q := set_j (u8 (q_k q + rd (q_S q) ((q_j q + rd (q_S q) (q_i q)) mod N))) q in
  let q := set_k (u8 (q_i q + q_k q + rd (q_S q) (q_j q mod N))) q in
  let temp := rd (q_S q) (q_i q mod N) in
  let q := set_S (wr (q_S q) (q_i q mod N) (rd (q_S q) (q_j q mod N))) q in
  let q := set_S (wr (q_S q) (q_j q mod N) temp) q in
  q.

(** [output]: the new state and the returned byte. *)
Definition output (q : minspritz_s) : minspritz_s * Z :=
  let q :=
    set_z (rd (q_S q)
             ((q_j q + rd (q_S q)
                         ((q_i q + rd (q_S q) ((q_z q + q_k q) mod N)) mod N))
              mod N)) q in
  (q, q_z q).

(** [whip] *)
Definition whip (q : minspritz_s) (r : Z) : minspritz_s :=
  let q := for_loop r (fun _ q => update q) q in
  set_w (u8 (q_w q + 2)) q.

(** [crush] *)
Definition crush (q : minspritz_s) : minspritz_s :=
  for_loop (N / 2) (fun v q =>
    if rd (q_S q) v >? rd (q_S q) (N - 1 - v) then
      let temp := rd (q_S q) v in
      let q := set_S (wr (q_S q) v (rd (q_S q) (N - 1 - v))) q in
      let q := set_S (wr (q_S q) (N - 1 - v) temp) q in
      q
    else q) q.

(** [shuffle] *)
Definition shuffle (q : minspritz_s) : minspritz_s :=
  let q := whip q (2 * N) in
  let q := crush q in
  let q := whip q (2 * N) in
  let q := crush q in
  let q := whip q (2 * N) in
  set_a 0 q.

(** [absorb_nibble] *)
Definition absorb_nibble (q : minspritz_s) (x : Z) : minspritz_s :=
  let q := if q_a q =? N / 2 then shuffle q else q in
  let temp := rd (q_S q) (q_a q mod N) in
  let q := set_S (wr (q_S q) (q_a q mod N) (rd (q_S q) (N / 2 + x))) q in
  let q := set_S (wr (q_S q) (N / 2 + x) temp) q in
  set_a (u8 (q_a q + 1)) q.

(** [absorb]: [i] is the input array and [i_len] the number of bytes read. *)
Definition absorb (q : minspritz_s) (i : list Z) (i_len : Z) : minspritz_s :=
  for_loop i_len (fun v q =>
    let q := absorb_nibble q (LOW (rd i v)) in
    let q := absorb_nibble q (HIGH (rd i v)) in
    q) q.

(** [absorb_stop] *)
Definition absorb_stop (q : minspritz_s) : minspritz_s :=
  let q := if q_a q =? N / 2 then shuffle q else q in
  set_a (u8 (q_a q + 1)) q.

(** [drip]: the new state and the returned byte. *)
Definition drip (q : minspritz_s) : minspritz_s * Z :=
  let q := if q_a q >? 0 then shuffle q else q in
  let q := update q in
  output q.

(** The value of a [uint8_t *]: the null pointer, or a block of bytes. *)
Inductive pointer : Type :=
| NULL
| Block (contents : list Z).

(** What a call that returns a [uint8_t *] does: it returns a pointer, or it
    stores through the null pointer, which C leaves undefined. *)
Inductive outcome : Type :=
| Return (p : pointer)
| NullStore.

(** [squeeze].  The argument [p] is what the call [malloc(r * sizeof(uint8_t))]
    gives: [NULL] when the allocation fails, else a block of [r] bytes with
    arbitrary contents.  The code does not test [p]: the loop stores
    [p[v] = drip(q)] (the call to [drip] first, then the store). *)
Definition squeeze (q : minspritz_s) (r : Z) (p : pointer) : minspritz_s * outcome :=
  let q := if q_a q >? 0 then shuffle q else q in
  match p with
  | Block buf =>
      let '(q, buf) :=
        for_loop r (fun v '(q, buf) =>
          let '(q, b) := drip q in (q, wr buf v b)) (q, buf) in
      (q, Return (Block buf))
  | NULL =>
      if 0 <? r then (fst (drip q), NullStore) else (q, Return NULL)
  end.

(** [minspritz_hash].  [q] is the uninitialised local [struct minspritz_s q]
    (whatever the stack holds), [m] the message with [m_len] its length, [r]
    the [uint8_t] output length, [p] the result of the allocation made by
    [squeeze]. *)
Definition minspritz_hash (q : minspritz_s) (m : list Z) (m_len : Z) (r : Z)
    (p : pointer) : outcome :=
  let q := initialise_state q in
  let q := absorb q m m_len in
  let q := absorb_stop q in
  let q := absorb q [r] 1 in
  snd (squeeze q r p).

(** [minminspritz_stream]: the key [m] of length [m_len]; no length argument. *)
Definition minminspritz_stream (q : minspritz_s) (m : list Z) (m_len : Z)
    (p : pointer) : outcome :=
  let q := initialise_state q in
  let q := absorb q m m_len in
  snd (squeeze q 32 p).

End Spritz.

Import Spritz.

(** ** Sequences of calls

    A client of the engine holds one struct and calls the functions on it in
    any order.  [exec c q] is the struct after the call [c]; the value the
    call returns, if any, is dropped. *)

Inductive call : Type :=
| call_update
| call_output
| call_crush
| call_whip (r : Z)
| call_shuffle
| call_absorb_nibble (x : Z)
| call_absorb (i : list Z) (i_len : Z)
| call_absorb_stop
| call_drip
| call_squeeze (r : Z) (p : pointer).

Definition exec (c : call) (q : minspritz_s) : minspritz_s :=
  match c with
  | call_update => update q
  | call_output => fst (output q)
  | call_crush => crush q
  | call_whip r => whip q r
  | call_shuffle => shuffle q
  | call_absorb_nibble x => absorb_nibble q x
  | call_absorb i i_len => absorb q i i_len
  | call_absorb_stop => absorb_stop q
  | call_drip => fst (drip q)
  | call_squeeze r p => fst (squeeze q r p)
  end.

(** The calls that respect the contracts of the C functions: [absorb_nibble]
    is given a nibble, a value in 0..15, as [absorb] does with [LOW] and
    [HIGH]; [absorb] reads [i_len] bytes of an array that has them; [squeeze]
    gets from [malloc] a block of [r] bytes, or the null pointer when it has
    nothing to store ([r <= 0]). *)
Definition valid_call (c : call) : Prop :=
  match c with
  | call_absorb_nibble x => 0 <= x < 16
  | call_absorb i i_len => i_len <= Z.of_nat (length i)
  | call_squeeze r NULL => r <= 0
  | call_squeeze r (Block buf) => length buf = Z.to_nat r
  | _ => True
  end.

(** The states a client can see: the struct after [initialise_state] (run on
    a struct of 256 cells holding anything), and after any further call. *)
Inductive reachable : minspritz_s -> Prop :=
| reachable_init q :
    length (q_S q) = 256%nat -> reachable (initialise_state q)
| reachable_call c q :
    reachable q -> valid_call c -> reachable (exec c q).

(** ** Notions used in the statements *)

(** [l] holds every byte value 0..255 exactly once (and nothing else): a
    bijection on {0..255}. *)
Definition bijection (l : list Z) : Prop :=
  length l = 256%nat /\
  Forall byte l /\
  forall b, 0 <= b < 256 -> count_occ Z.eq_dec l b = 1%nat.

(** [S] is a rearrangement of 0, 1, ..., 255. *)
Definition perm (q : minspritz_s) : Prop := q_S q ≡ₚ seqZ 0 256.

(** [w] is odd. *)
Definition odd_w (q : minspritz_s) : Prop := Z.odd (q_w q) = true.

(** The array has its 256 cells. *)
Definition full_size (q : minspritz_s) : Prop := length (q_S q) = 256%nat.

(** The cells [v] and [255 - v] are in order for every [v] below [n]. *)
Definition pairs_ordered (n : Z) (l : list Z) : Prop :=
  forall v, 0 <= v < n -> rd l v <= rd l (255 - v).

(** The state [initialise_state] leaves. *)
Definition initial_state : minspritz_s := mk_state 0 0 0 0 0 1 (seqZ 0 256).

(** The nibbles of a byte sequence in the order they are absorbed: for each
    byte the low one, then the high one. *)
Definition nibbles (bytes : list Z) : list Z :=
  flat_map (fun b => [Z.land b 15; Z.land (Z.shiftr b 4) 15]) bytes.

(** The first [n] bytes that successive calls of [drip] return from [q], and
    the state after them. *)
Fixpoint drips (n : nat) (q : minspritz_s) : list Z :=
  match n with
  | O => []
  | S n' => let '(q', b) := drip q in b :: drips n' q'
  end.

Definition after_drips (n : nat) (q : minspritz_s) : minspritz_s :=
  Nat.iter n (fun q => fst (drip q)) q.

(** [w += 2] on its own: the last statement of [whip]. *)
Definition bump_w (q : minspritz_s) : minspritz_s := set_w ((q_w q + 2) mod 256) q.

(** The pending-absorption test that opens [absorb_nibble] and [absorb_stop]. *)
Definition shuffle_if_full (q : minspritz_s) : minspritz_s :=
  if q_a q =? 128 then shuffle q else q.

(** The test that opens [drip] and [squeeze]. *)
Definition shuffle_if_pending (q : minspritz_s) : minspritz_s :=
  if q_a q >? 0 then shuffle q else q.

(** One iteration of the loop of [crush]. *)
Definition crush_step (v : Z) (q : minspritz_s) : minspritz_s :=
  if rd (q_S q) v >? rd (q_S q) (255 - v)
  then set_S (swap (q_S q) v (255 - v)) q else q.

(** One iteration of the loop of [squeeze] on an allocated block. *)
Definition squeeze_step (v : Z) (acc : minspritz_s * list Z) : minspritz_s * list Z :=
  (fst (drip (fst acc)), wr (snd acc) v (snd (drip (fst acc)))).

(** A garbage struct and a garbage block, for running the code. *)
Definition junk_state : minspritz_s := mk_state 7 200 13 99 5 42 (replicate 256 170).
Definition junk_block (n : nat) : pointer := Block (replicate n 85).

(** ** Notions used in the further properties *)

(** The values the C types and the counter discipline allow: a byte in
    [i], [j], [k], [z] and [w], a counter [a] in 0..128, and a rearrangement
    of 0..255 in [S]. *)
Definition typed (q : minspritz_s) : Prop :=
  byte (q_i q) /\ byte (q_j q) /\ byte (q_k q) /\ byte (q_z q) /\
  0 <= q_a q <= 128 /\ byte (q_w q) /\ perm q.

(** The bytes [n] successive [update(q); output(q)] pairs return, and the
    state after them: a [drip] without its test of [a]. *)
Definition step (q : minspritz_s) : minspritz_s * Z := output (update q).

Fixpoint steps (n : nat) (q : minspritz_s) : list Z :=
  match n with
  | O => []
  | S n' => let '(q', b) := step q in b :: steps n' q'
  end.

(** The swap and the increment of [absorb_nibble], without its test of [a]. *)
Definition nibble_step (q : minspritz_s) (x : Z) : minspritz_s :=
  set_a ((q_a q + 1) mod 256) (set_S (swap (q_S q) (q_a q mod 256) (128 + x)) q).

(** ** The test driver of minspritz.c

    The standard output is the list of the characters written so far; a
    function that prints takes it and returns it extended. *)

Module Driver.

(** The digits of [%X], in upper case. *)
Definition hex_digits : list ascii :=
  ["0"; "1"; "2"; "3"; "4"; "5"; "6"; "7"; "8"; "9"; "A"; "B"; "C"; "D"; "E"; "F"]%char.

Definition hex_digit (d : Z) : ascii := nth (Z.to_nat d) hex_digits "0"%char.

(** [printf("%02X", x)] for the value [x] of a [uint8_t], 0..255: upper-case
    hexadecimal, at least two digits, padded with 0, which for such a value is
    the digit of [x / 16] and the digit of [x mod 16]. *)
Definition printf_02X (x : Z) : list ascii := [hex_digit (x / 16); hex_digit (x mod 16)].

(** [print_hex] *)
Definition print_hex (bytes : list Z) (len : Z) (out : list ascii) : list ascii :=
  let out := for_loop len (fun i out => out ++ printf_02X (rd bytes i)) out in
  out ++ ["010"%char].

(** [strlen]: the number of bytes before the first 0. *)
Fixpoint strlen (s : list Z) : Z :=
  match s with
  | [] => 0
  | c :: s' => if c =? 0 then 0 else 1 + strlen s'
  end.

(** [char in1[] = "ABC"], [in2[] = "spam"], [in3[] = "arcfour"], each with its
    terminating 0. *)
Definition in1 : list Z := [65; 66; 67; 0].
Definition in2 : list Z := [115; 112; 97; 109; 0].
Definition in3 : list Z := [97; 114; 99; 102; 111; 117; 114; 0].

(** [main].  [q1], [q2], [q3] are the uninitialised structs of the three
    calls of [minspritz_hash] and [p1], [p2], [p3] the results of their
    allocations.  The result is what the standard output holds at the end;
    [None] when a call stores or reads through the null pointer. *)
Definition main (q1 q2 q3 : minspritz_s) (p1 p2 p3 : pointer) (out : list ascii) :
    option (list ascii) :=
  match minspritz_hash q1 in1 (strlen in1) 32 p1 with
  | Return (Block res) =>
      let out := print_hex res 32 out in
      match minspritz_hash q2 in2 (strlen in2) 32 p2 with
      | Return (Block res) =>
          let out := print_hex res 32 out in
          match minspritz_hash q3 in3 (strlen in3) 32 p3 with
          | Return (Block res) => Some (print_hex res 32 out)
          | _ => None
          end
      | _ => None
      end
  | _ => None
  end.

End Driver.

Import Driver.

(** The value of a hexadecimal digit, and the bytes a string of digit pairs
    denotes. *)
Fixpoint position (c : ascii) (l : list ascii) : nat :=
  match l with
  | [] => O
  | x :: l' => if Ascii.eqb c x then O else S (position c l')
  end.

Definition hex_value (c : ascii) : Z := Z.of_nat (position c hex_digits).

Fixpoint unhex (s : list ascii) : list Z :=
  match s with
  | hi :: lo :: rest => (16 * hex_value hi + hex_value lo) :: unhex rest
  | _ => []
  end.

(** The digest of the message [m] for 32 bytes. *)
Definition digest32 (m : list Z) : list Z :=
  steps 32 (shuffle (absorb (absorb_stop
    (absorb initial_state m (Z.of_nat (length m)))) [32] 1)).

(** ** Facts about arrays *)

Section Arrays.
Implicit Types (l : list Z) (p x : Z).

Lemma length_wr l p x : length (wr l p x) = length l.
Proof. apply length_insert. Qed.

Lemma rd_lookup l p :
  0 <= p < Z.of_nat (length l) -> l !! Z.to_nat p = Some (rd l p).
Proof.
  intros Hp. unfold rd.
  destruct (lookup_lt_is_Some_2 l (Z.to_nat p)) as [y ->]; [lia | done].
Qed.

Lemma rd_wr_same l p x :
  0 <= p < Z.of_nat (length l) -> rd (wr l p x) p = x.
Proof.
  intros Hp. unfold rd, wr.
  rewrite list_lookup_insert_eq; [done | lia].
Qed.

Lemma rd_wr_other l p p' x :
  0 <= p -> 0 <= p' -> p <> p' -> rd (wr l p x) p' = rd l p'.
Proof.
  intros Hp Hp' Hne. unfold rd, wr.
  rewrite list_lookup_insert_ne; [done | lia].
Qed.

(** Writing just past a filled prefix extends the prefix by one cell. *)
Lemma wr_frontier l (pre : list Z) x :
  (length pre < length l)%nat ->
  wr (pre ++ drop (length pre) l) (Z.of_nat (length pre)) x =
  (pre ++ [x]) ++ drop (S (length pre)) l.
Proof.
  intros Hlt. unfold wr. rewrite Nat2Z.id.
  rewrite insert_app_r_alt by lia. rewrite Nat.sub_diag.
  destruct (drop (length pre) l) as [|y t] eqn:E.
  - apply (f_equal length) in E. rewrite length_drop in E. simpl in E. lia.
  - simpl. rewrite <- app_assoc. simpl. do 2 f_equal.
    replace (S (length pre)) with (length pre + 1)%nat by lia.
    by rewrite <- drop_drop, E.
Qed.

Lemma length_swap l p p' : length (swap l p p') = length l.
Proof. unfold swap. by rewrite !length_wr. Qed.

Lemma rd_swap l p p' c :
  0 <= p < Z.of_nat (length l) -> 0 <= p' < Z.of_nat (length l) -> 0 <= c ->
  rd (swap l p p') c =
    if decide (c = p') then rd l p else if decide (c = p) then rd l p' else rd l c.
Proof.
  intros Hp Hp' Hc. unfold swap.
  destruct (decide (c = p')) as [->|Hne'].
  - rewrite rd_wr_same; [done | rewrite length_wr; lia].
  - rewrite rd_wr_other by lia.
    destruct (decide (c = p)) as [->|Hne].
    + by rewrite rd_wr_same.
    + by rewrite rd_wr_other by lia.
Qed.

Lemma swap_exchanged l p p' :
  0 <= p < Z.of_nat (length l) -> 0 <= p' < Z.of_nat (length l) ->
  exchanged l (swap l p p') p p'.
Proof.
  intros Hp Hp'. split; [apply length_swap|].
  intros c Hc. apply rd_swap; lia.
Qed.

(** Exchanging two cells of an array rearranges it. *)
Lemma swap_Permutation l p p' :
  0 <= p < Z.of_nat (length l) -> 0 <= p' < Z.of_nat (length l) ->
  swap l p p' ≡ₚ l.
Proof.
  intros Hp Hp'. apply Permutation_inj. split; [apply length_swap|].
  exists (fun n => if decide (n = Z.to_nat p') then Z.to_nat p
                   else if decide (n = Z.to_nat p) then Z.to_nat p' else n).
  split.
  - intros n m. repeat case_decide; lia.
  - intros n. unfold swap, wr.
    destruct (decide (n = Z.to_nat p')) as [->|Hnb].
    + rewrite list_lookup_insert_eq by (rewrite length_insert; lia).
      by rewrite rd_lookup.
    + rewrite list_lookup_insert_ne by lia.
      destruct (decide (n = Z.to_nat p)) as [->|Hna].
      * rewrite list_lookup_insert_eq by lia. by rewrite rd_lookup.
      * by rewrite list_lookup_insert_ne by lia.
Qed.
End Arrays.

(** ** Facts about loops *)

Section Loops.
Context {A : Type}.
Implicit Types (body : Z -> A -> A) (s : A).

Lemma for_loop_nonpos bound body s : bound <= 0 -> for_loop bound body s = s.
Proof.
  intros Hb. unfold for_loop, seqZ.
  replace (Z.to_nat bound) with 0%nat by lia. done.
Qed.

Lemma for_loop_succ n body s :
  0 <= n -> for_loop (n + 1) body s = body n (for_loop n body s).
Proof.
  intros Hn. unfold for_loop.
  rewrite seqZ_app by lia. rewrite fold_left_app. simpl.
  by rewrite Z.add_0_l.
Qed.

(** The invariant rule of the loop: [P v acc] is the state of affairs before
    the iteration for [v]. *)
Lemma for_loop_invariant (P : Z -> A -> Prop) bound body s :
  0 <= bound ->
  P 0 s ->
  (forall v acc, 0 <= v < bound -> P v acc -> P (v + 1) (body v acc)) ->
  P bound (for_loop bound body s).
Proof.
  intros Hb H0 Hstep.
  assert (Hgen : forall n : nat, Z.of_nat n <= bound ->
                   P (Z.of_nat n) (for_loop (Z.of_nat n) body s)).
  { induction n as [|n IH]; intros Hle.
    - by rewrite for_loop_nonpos.
    - rewrite Nat2Z.inj_succ, <- Z.add_1_r, for_loop_succ by lia.
      apply Hstep; [lia | apply IH; lia]. }
  specialize (Hgen (Z.to_nat bound)). rewrite Z2Nat.id in Hgen by lia.
  apply Hgen. lia.
Qed.

Lemma for_loop_ext bound body body' s :
  (forall v acc, body v acc = body' v acc) ->
  for_loop bound body s = for_loop bound body' s.
Proof.
  intros Hext. unfold for_loop. generalize s.
  induction (seqZ 0 bound) as [|v l IH]; intros acc; simpl; [done|].
  by rewrite Hext, IH.
Qed.

(** The same rule for a property that does not mention the counter; it holds
    for every bound, also a negative one. *)
Lemma for_loop_preserves (P : A -> Prop) bound body s :
  P s -> (forall v acc, 0 <= v < bound -> P acc -> P (body v acc)) ->
  P (for_loop bound body s).
Proof.
  intros H0 Hstep. destruct (Z_le_gt_dec bound 0) as [Hle|Hgt].
  - by rewrite for_loop_nonpos.
  - apply (for_loop_invariant (fun _ acc => P acc)); [lia | done | auto].
Qed.

(** A loop whose body ignores the counter repeats its body. *)
Lemma for_loop_iter bound (f : A -> A) s :
  for_loop bound (fun _ acc => f acc) s = Nat.iter (Z.to_nat bound) f s.
Proof.
  destruct (Z_le_gt_dec bound 0) as [Hle|Hgt].
  - rewrite for_loop_nonpos by done.
    replace (Z.to_nat bound) with 0%nat by lia. done.
  - apply (for_loop_invariant
             (fun v acc => acc = Nat.iter (Z.to_nat v) f s)); [lia | done |].
    intros v acc Hv ->.
    replace (Z.to_nat (v + 1)) with (S (Z.to_nat v)) by lia. done.
Qed.
End Loops.

(** ** The functions in closed form *)

Lemma mod_N_u8 x : u8 x mod N = u8 x.
Proof. unfold u8, N. apply Z.mod_mod. lia. Qed.

Lemma nibble_range b : 0 <= Z.land b 15 < 16.
Proof.
  change 15 with (Z.ones 4). rewrite Z.land_ones by lia.
  apply Z.mod_pos_bound. lia.
Qed.

Lemma update_closed q :
  update q =
    let i' := (q_i q + q_w q) mod 256 in
    let j' := (q_k q + rd (q_S q) ((q_j q + rd (q_S q) i') mod 256)) mod 256 in
    let k' := (i' + q_k q + rd (q_S q) j') mod 256 in
    mk_state i' j' k' (q_z q) (q_a q) (q_w q) (swap (q_S q) i' j').
Proof.
  unfold update, set_i, set_j, set_k, set_S, swap; cbn [q_i q_j q_k q_z q_a q_w q_S].
  rewrite !mod_N_u8. reflexivity.
Qed.

Lemma output_closed q :
  output q =
    let b := rd (q_S q)
               ((q_j q + rd (q_S q)
                  ((q_i q + rd (q_S q) ((q_z q + q_k q) mod 256)) mod 256))
                mod 256) in
    (set_z b q, b).
Proof. reflexivity. Qed.

Lemma whip_closed q r :
  whip q r = bump_w (Nat.iter (Z.to_nat r) update q).
Proof. unfold whip. by rewrite for_loop_iter. Qed.

Lemma shuffle_closed q :
  shuffle q = set_a 0 (whip (crush (whip (crush (whip q 512)) 512)) 512).
Proof. reflexivity. Qed.

Lemma absorb_nibble_closed q x :
  absorb_nibble q x =
    let q1 := shuffle_if_full q in
    set_a ((q_a q1 + 1) mod 256)
      (set_S (swap (q_S q1) (q_a q1 mod 256) (128 + x)) q1).
Proof. reflexivity. Qed.

Lemma absorb_stop_closed q :
  absorb_stop q = let q1 := shuffle_if_full q in set_a ((q_a q1 + 1) mod 256) q1.
Proof. reflexivity. Qed.

Lemma drip_closed q : drip q = output (update (shuffle_if_pending q)).
Proof. reflexivity. Qed.

Lemma crush_closed q : crush q = for_loop 128 crush_step q.
Proof. reflexivity. Qed.

Lemma fst_of_pair {A B : Type} (a : A) (b : B) : fst (a, b) = a.
Proof. reflexivity. Qed.

Lemma snd_of_pair {A B : Type} (a : A) (b : B) : snd (a, b) = b.
Proof. reflexivity. Qed.

Lemma fst_squeeze_step v acc : fst (squeeze_step v acc) = fst (drip (fst acc)).
Proof. unfold squeeze_step. apply fst_of_pair. Qed.

Lemma snd_squeeze_step v acc :
  snd (squeeze_step v acc) = wr (snd acc) v (snd (drip (fst acc))).
Proof. unfold squeeze_step. apply snd_of_pair. Qed.

Lemma squeeze_Block q r buf :
  squeeze q r (Block buf) =
    let acc := for_loop r squeeze_step (shuffle_if_pending q, buf) in
    (fst acc, Return (Block (snd acc))).
Proof.
  unfold squeeze. fold (shuffle_if_pending q).
  rewrite (for_loop_ext _ _ squeeze_step).
  - by destruct (for_loop r squeeze_step (shuffle_if_pending q, buf)).
  - intros v [q0 buf0]. unfold squeeze_step. simpl. by destruct (drip q0).
Qed.

Lemma squeeze_NULL q r :
  squeeze q r NULL =
    if 0 <? r then (fst (drip (shuffle_if_pending q)), NullStore)
    else (shuffle_if_pending q, Return NULL).
Proof. reflexivity. Qed.

#[global] Arguments initialise_state : simpl never.
#[global] Arguments update : simpl never.
#[global] Arguments output : simpl never.
#[global] Arguments whip : simpl never.
#[global] Arguments crush : simpl never.
#[global] Arguments shuffle : simpl never.
#[global] Arguments absorb_nibble : simpl never.
#[global] Arguments absorb : simpl never.
#[global] Arguments absorb_stop : simpl never.
#[global] Arguments drip : simpl never.
#[global] Arguments squeeze : simpl never.

(** ** Invariants of the engine

    A property of the struct that the elementary steps keep is kept by every
    function, hence holds in every reachable state.  The elementary steps
    are: one [update], one iteration of [crush], the [w += 2] of [whip], the
    swap of [absorb_nibble], and the assignments to [a] and [z]. *)

Section Invariant.
Variable P : minspritz_s -> Prop.
Hypothesis P_update : forall q, P q -> P (update q).
Hypothesis P_crush_step : forall v q, 0 <= v < 128 -> P q -> P (crush_step v q).
Hypothesis P_bump_w : forall q, P q -> P (bump_w q).
Hypothesis P_nibble_swap : forall q x,
  0 <= x < 16 -> P q -> P (set_S (swap (q_S q) (q_a q mod 256) (128 + x)) q).
Hypothesis P_set_a : forall v q, P q -> P (set_a v q).
Hypothesis P_set_z : forall v q, P q -> P (set_z v q).

Lemma inv_iter_update n q : P q -> P (Nat.iter n update q).
Proof. intros Hq. induction n as [|n IH]; simpl; auto. Qed.

Lemma inv_whip q r : P q -> P (whip q r).
Proof. intros Hq. rewrite whip_closed. auto using inv_iter_update. Qed.

Lemma inv_crush q : P q -> P (crush q).
Proof. intros Hq. rewrite crush_closed. apply for_loop_preserves; auto. Qed.

Lemma inv_shuffle q : P q -> P (shuffle q).
Proof. intros Hq. rewrite shuffle_closed. auto 10 using inv_whip, inv_crush. Qed.

Lemma inv_shuffle_if_full q : P q -> P (shuffle_if_full q).
Proof. intros Hq. unfold shuffle_if_full. case_match; auto using inv_shuffle. Qed.

Lemma inv_shuffle_if_pending q : P q -> P (shuffle_if_pending q).
Proof. intros Hq. unfold shuffle_if_pending. case_match; auto using inv_shuffle. Qed.

Lemma inv_absorb_nibble q x : 0 <= x < 16 -> P q -> P (absorb_nibble q x).
Proof.
  intros Hx Hq. rewrite absorb_nibble_closed. cbv zeta.
  auto using inv_shuffle_if_full.
Qed.

Lemma inv_absorb q i i_len : P q -> P (absorb q i i_len).
Proof.
  intros Hq. unfold absorb. apply for_loop_preserves; [done|].
  intros v acc _ Hacc. unfold LOW, HIGH.
  auto using inv_absorb_nibble, nibble_range.
Qed.

Lemma inv_absorb_stop q : P q -> P (absorb_stop q).
Proof.
  intros Hq. rewrite absorb_stop_closed. cbv zeta.
  auto using inv_shuffle_if_full.
Qed.

Lemma inv_output q : P q -> P (fst (output q)).
Proof. intros Hq. rewrite output_closed. cbv zeta. rewrite fst_of_pair. auto. Qed.

Lemma inv_drip q : P q -> P (fst (drip q)).
Proof.
  intros Hq. rewrite drip_closed.
  auto using inv_output, inv_shuffle_if_pending.
Qed.

Lemma inv_squeeze q r p : P q -> P (fst (squeeze q r p)).
Proof.
  intros Hq. destruct p as [|buf].
  - rewrite squeeze_NULL.
    case_match; rewrite fst_of_pair; auto using inv_drip, inv_shuffle_if_pending.
  - rewrite squeeze_Block. cbv zeta. rewrite fst_of_pair.
    apply (for_loop_preserves (fun acc => P (fst acc))).
    + rewrite fst_of_pair. auto using inv_shuffle_if_pending.
    + intros v acc _ Hacc. rewrite fst_squeeze_step. auto using inv_drip.
Qed.

Lemma inv_exec c q : valid_call c -> P q -> P (exec c q).
Proof.
  intros Hc Hq. destruct c.
  - by apply P_update.
  - by apply inv_output.
  - by apply inv_crush.
  - by apply inv_whip.
  - by apply inv_shuffle.
  - by apply inv_absorb_nibble.
  - by apply inv_absorb.
  - by apply inv_absorb_stop.
  - by apply inv_drip.
  - by apply inv_squeeze.
Qed.

Hypothesis P_init : forall q, length (q_S q) = 256%nat -> P (initialise_state q).

Lemma inv_reachable q : reachable q -> P q.
Proof. induction 1; auto using inv_exec. Qed.
End Invariant.

(** ** [initialise_state] *)

Lemma initialise_state_closed q :
  length (q_S q) = 256%nat -> initialise_state q = initial_state.
Proof.
  intros Hlen. unfold initialise_state.
  set (q0 := set_w 1 _).
  assert (Hinv : for_loop N (fun v acc => set_S (wr (q_S acc) v (u8 v)) acc) q0 =
                 mk_state 0 0 0 0 0 1 (seqZ 0 N ++ drop (Z.to_nat N) (q_S q))).
  { apply (for_loop_invariant (fun v acc =>
       acc = mk_state 0 0 0 0 0 1 (seqZ 0 v ++ drop (Z.to_nat v) (q_S q)))).
    - unfold N; lia.
    - by rewrite drop_0.
    - intros v acc Hv ->. unfold N in Hv. unfold set_S; cbn [q_i q_j q_k q_z q_a q_w q_S].
      f_equal.
      assert (Hpre : length (seqZ 0 v) = Z.to_nat v) by apply length_seqZ.
      rewrite <- Hpre.
      replace v with (Z.of_nat (length (seqZ 0 v))) at 3 by lia.
      rewrite wr_frontier by lia.
      rewrite Hpre. replace (Z.to_nat (v + 1)) with (S (Z.to_nat v)) by lia.
      f_equal. rewrite seqZ_app by lia. f_equal.
      unfold u8. rewrite Z.mod_small by lia. done. }
  rewrite Hinv. unfold initial_state, N. f_equal.
  rewrite drop_ge by lia. by rewrite app_nil_r.
Qed.

(** ** The permutation kept in [S] *)

Lemma length_of_perm (l : list Z) : l ≡ₚ seqZ 0 256 -> length l = 256%nat.
Proof. intros H. by rewrite H, length_seqZ. Qed.

Lemma Forall_byte_seqZ : Forall byte (seqZ 0 256).
Proof.
  apply Forall_forall. intros b Hb. apply elem_of_seqZ in Hb. unfold byte. lia.
Qed.

Lemma count_occ_seqZ b : 0 <= b < 256 -> count_occ Z.eq_dec (seqZ 0 256) b = 1%nat.
Proof.
  intros Hb. apply NoDup_count_occ'.
  - apply NoDup_ListNoDup, NoDup_seqZ.
  - apply list_elem_of_In, elem_of_seqZ. lia.
Qed.

Lemma perm_bijection (l : list Z) : l ≡ₚ seqZ 0 256 -> bijection l.
Proof.
  intros H. split; [by apply length_of_perm|]. split.
  - rewrite H. apply Forall_byte_seqZ.
  - intros b Hb. rewrite <- (count_occ_seqZ b Hb).
    by apply Permutation_count_occ.
Qed.

Lemma bijection_perm (l : list Z) : bijection l -> l ≡ₚ seqZ 0 256.
Proof.
  intros (Hlen & _ & Hcount). symmetry.
  apply submseteq_length_Permutation.
  - apply NoDup_submseteq; [apply NoDup_seqZ|].
    intros b Hb. apply elem_of_seqZ in Hb.
    apply list_elem_of_In, (count_occ_In Z.eq_dec). rewrite Hcount; lia.
  - rewrite Hlen, length_seqZ. lia.
Qed.

Lemma perm_swap l p p' :
  l ≡ₚ seqZ 0 256 -> 0 <= p < 256 -> 0 <= p' < 256 -> swap l p p' ≡ₚ seqZ 0 256.
Proof.
  intros Hl Hp Hp'. pose proof (length_of_perm l Hl) as Hlen.
  rewrite swap_Permutation; [done | lia | lia].
Qed.

Lemma perm_update q : perm q -> perm (update q).
Proof.
  unfold perm. intros Hq. rewrite update_closed. cbn [q_S].
  apply perm_swap; [done | apply Z.mod_pos_bound; lia..].
Qed.

Lemma perm_crush_step v q : 0 <= v < 128 -> perm q -> perm (crush_step v q).
Proof.
  unfold perm, crush_step. intros Hv Hq. case_match; [|done].
  cbn [set_S q_S]. apply perm_swap; [done | lia..].
Qed.

Lemma perm_nibble_swap q x :
  0 <= x < 16 -> perm q -> perm (set_S (swap (q_S q) (q_a q mod 256) (128 + x)) q).
Proof.
  unfold perm. intros Hx Hq. cbn [set_S q_S].
  apply perm_swap; [done | apply Z.mod_pos_bound; lia | lia].
Qed.

Lemma perm_init q : length (q_S q) = 256%nat -> perm (initialise_state q).
Proof. intros Hlen. unfold perm. by rewrite initialise_state_closed. Qed.

(** ** The parity of [w] *)

Lemma odd_plus_2_mod w : Z.odd ((w + 2) mod 256) = Z.odd w.
Proof.
  rewrite Z.mod_eq by lia.
  replace (w + 2 - 256 * ((w + 2) / 256)) with (w + 2 * (1 - 128 * ((w + 2) / 256)))
    by lia.
  apply Z.odd_add_mul_2.
Qed.

Lemma q_w_update q : q_w (update q) = q_w q.
Proof. by rewrite update_closed. Qed.

Lemma q_w_iter_update n q : q_w (Nat.iter n update q) = q_w q.
Proof. induction n as [|n IH]; [done|]. by rewrite Nat.iter_succ, q_w_update. Qed.

Lemma q_w_crush_step v q : q_w (crush_step v q) = q_w q.
Proof. unfold crush_step. by case_match. Qed.

Lemma odd_w_crush_step v q : 0 <= v < 128 -> odd_w q -> odd_w (crush_step v q).
Proof. unfold odd_w. intros _ Hq. by rewrite q_w_crush_step. Qed.

Lemma odd_w_update q : odd_w q -> odd_w (update q).
Proof. unfold odd_w. by rewrite q_w_update. Qed.

Lemma odd_w_bump_w q : odd_w q -> odd_w (bump_w q).
Proof. unfold odd_w, bump_w. cbn [set_w q_w]. by rewrite odd_plus_2_mod. Qed.

Lemma odd_w_init q : length (q_S q) = 256%nat -> odd_w (initialise_state q).
Proof. intros Hlen. unfold odd_w. by rewrite initialise_state_closed. Qed.

(** ** What each function leaves alone *)

Lemma crush_step_only_S v q : crush_step v q = set_S (q_S (crush_step v q)) q.
Proof. unfold crush_step. case_match; [done | by destruct q]. Qed.

Lemma crush_only_S q : crush q = set_S (q_S (crush q)) q.
Proof.
  rewrite crush_closed.
  apply (for_loop_preserves (fun acc => acc = set_S (q_S acc) q)).
  - by destruct q.
  - intros v acc _ Hacc. rewrite crush_step_only_S, Hacc. done.
Qed.

Lemma ijk_set_z v q : ijk (set_z v q) = ijk q.
Proof. reflexivity. Qed.

Lemma ijk_set_a v q : ijk (set_a v q) = ijk q.
Proof. reflexivity. Qed.

Lemma ijk_set_w v q : ijk (set_w v q) = ijk q.
Proof. reflexivity. Qed.

Lemma ijk_set_S l q : ijk (set_S l q) = ijk q.
Proof. reflexivity. Qed.

Lemma ijk_crush q : ijk (crush q) = ijk q.
Proof. by rewrite crush_only_S. Qed.

Lemma q_w_set_z v q : q_w (set_z v q) = q_w q.
Proof. reflexivity. Qed.

Lemma q_w_set_a v q : q_w (set_a v q) = q_w q.
Proof. reflexivity. Qed.

Lemma q_w_set_S l q : q_w (set_S l q) = q_w q.
Proof. reflexivity. Qed.

Lemma q_w_crush q : q_w (crush q) = q_w q.
Proof. by rewrite crush_only_S. Qed.

Lemma q_w_whip q r : q_w (whip q r) = (q_w q + 2) mod 256.
Proof.
  rewrite whip_closed. unfold bump_w. cbn [set_w q_w].
  by rewrite q_w_iter_update.
Qed.

Lemma whip_steps q r :
  whip q r = set_w ((q_w q + 2) mod 256) (Nat.iter (Z.to_nat r) update q).
Proof. rewrite whip_closed. unfold bump_w. by rewrite q_w_iter_update. Qed.

Lemma initialise_state_regs q :
  let q' := initialise_state q in
  q_i q' = 0 /\ q_j q' = 0 /\ q_k q' = 0 /\ q_z q' = 0 /\ q_a q' = 0 /\ q_w q' = 1.
Proof.
  unfold initialise_state.
  apply (for_loop_preserves (fun acc =>
    q_i acc = 0 /\ q_j acc = 0 /\ q_k acc = 0 /\ q_z acc = 0 /\ q_a acc = 0 /\
    q_w acc = 1)); [done|].
  intros v acc _ Hacc. exact Hacc.
Qed.

(** ** [absorb] as a sequence of nibbles *)

Lemma nibbles_app l1 l2 : nibbles (l1 ++ l2) = nibbles l1 ++ nibbles l2.
Proof. unfold nibbles. apply flat_map_app. Qed.

Lemma absorb_nibbles q (bytes : list Z) :
  absorb q bytes (Z.of_nat (length bytes)) = fold_left absorb_nibble (nibbles bytes) q.
Proof.
  unfold absorb.
  rewrite <- (firstn_all bytes) at 2.
  rewrite <- (Nat2Z.id (length bytes)) at 2.
  apply (for_loop_invariant (fun v acc =>
    acc = fold_left absorb_nibble (nibbles (take (Z.to_nat v) bytes)) q)).
  - lia.
  - done.
  - intros v acc Hv ->.
    replace (Z.to_nat (v + 1)) with (S (Z.to_nat v)) by lia.
    rewrite (take_S_r bytes (Z.to_nat v) (rd bytes v)) by (apply rd_lookup; lia).
    rewrite nibbles_app, fold_left_app. reflexivity.
Qed.

(** ** [squeeze] as a sequence of drips *)

Lemma length_drips n q : length (drips n q) = n.
Proof.
  revert q. induction n as [|n IH]; intros q; [done|].
  cbn [drips]. destruct (drip q) as [q' b]. cbn [length]. by rewrite IH.
Qed.

Lemma after_drips_succ n q : after_drips (S n) q = fst (drip (after_drips n q)).
Proof. reflexivity. Qed.

Lemma after_drips_succ_r n q : after_drips (S n) q = after_drips n (fst (drip q)).
Proof. unfold after_drips. by rewrite Nat.iter_succ_r. Qed.

Lemma drips_snoc n q :
  drips (S n) q = drips n q ++ [snd (drip (after_drips n q))].
Proof.
  revert q. induction n as [|n IH]; intros q.
  - change (after_drips 0 q) with q. cbn [drips]. by destruct (drip q).
  - change (drips (S (S n)) q) with (let '(q', b) := drip q in b :: drips (S n) q').
    change (drips (S n) q) with (let '(q', b) := drip q in b :: drips n q').
    rewrite after_drips_succ_r.
    destruct (drip q) as [q' b]. cbn [fst]. by rewrite IH.
Qed.

Lemma squeeze_loop q1 r buf :
  0 <= r -> length buf = Z.to_nat r ->
  for_loop r squeeze_step (q1, buf) =
    (after_drips (Z.to_nat r) q1, drips (Z.to_nat r) q1).
Proof.
  intros Hr Hlen.
  assert (Hinv : let acc := for_loop r squeeze_step (q1, buf) in
            fst acc = after_drips (Z.to_nat r) q1 /\
            snd acc = drips (Z.to_nat r) q1 ++ drop (Z.to_nat r) buf).
  { apply (for_loop_invariant (fun v acc =>
       fst acc = after_drips (Z.to_nat v) q1 /\
       snd acc = drips (Z.to_nat v) q1 ++ drop (Z.to_nat v) buf));
      [lia | split; reflexivity |].
    intros v acc Hv [Hq Hb].
    replace (Z.to_nat (v + 1)) with (S (Z.to_nat v)) by lia.
    rewrite fst_squeeze_step, snd_squeeze_step, Hq, Hb. split; [done|].
    rewrite drips_snoc.
    pose proof (length_drips (Z.to_nat v) q1) as Hpre.
    rewrite <- Hpre at 2 4.
    replace v with (Z.of_nat (length (drips (Z.to_nat v) q1))) at 3 by lia.
    rewrite wr_frontier by lia. by rewrite Hpre. }
  cbv zeta in Hinv. destruct Hinv as [Hq Hb].
  rewrite drop_ge, app_nil_r in Hb by lia.
  rewrite (surjective_pairing (for_loop r squeeze_step (q1, buf))).
  by rewrite Hq, Hb.
Qed.

(** With the allocation successful, [squeeze] returns the block filled with
    the next [r] drips: nothing of the block's old contents is left. *)
Lemma squeeze_bytes q r buf :
  length buf = Z.to_nat r ->
  squeeze q r (Block buf) =
    (after_drips (Z.to_nat r) (shuffle_if_pending q),
     Return (Block (drips (Z.to_nat r) (shuffle_if_pending q)))).
Proof.
  intros Hlen. rewrite squeeze_Block. cbv zeta.
  destruct (Z_le_gt_dec 0 r) as [Hr|Hr].
  - by rewrite squeeze_loop, fst_of_pair, snd_of_pair.
  - rewrite for_loop_nonpos, fst_of_pair, snd_of_pair by lia.
    replace (Z.to_nat r) with 0%nat in * by lia.
    destruct buf; [done | discriminate].
Qed.

Lemma squeeze_state q r buf :
  fst (squeeze q r (Block buf)) = after_drips (Z.to_nat r) (shuffle_if_pending q).
Proof.
  rewrite squeeze_Block. cbv zeta. rewrite fst_of_pair.
  destruct (Z_le_gt_dec r 0) as [Hr|Hr].
  - rewrite for_loop_nonpos, fst_of_pair by lia.
    replace (Z.to_nat r) with 0%nat by lia. done.
  - apply (for_loop_invariant (fun v acc =>
      fst acc = after_drips (Z.to_nat v) (shuffle_if_pending q))); [lia | done |].
    intros v acc Hv Hacc. rewrite fst_squeeze_step.
    replace (Z.to_nat (v + 1)) with (S (Z.to_nat v)) by lia.
    by rewrite after_drips_succ, Hacc.
Qed.
(** ** The invariants, function by function *)

Lemma perm_bump_w q : perm q -> perm (bump_w q).
Proof. done. Qed.

Lemma perm_set_a v q : perm q -> perm (set_a v q).
Proof. done. Qed.

Lemma perm_set_z v q : perm q -> perm (set_z v q).
Proof. done. Qed.

Lemma odd_w_nibble_swap q x :
  0 <= x < 16 -> odd_w q -> odd_w (set_S (swap (q_S q) (q_a q mod 256) (128 + x)) q).
Proof. done. Qed.

Lemma odd_w_set_a v q : odd_w q -> odd_w (set_a v q).
Proof. done. Qed.

Lemma odd_w_set_z v q : odd_w q -> odd_w (set_z v q).
Proof. done. Qed.

Lemma full_size_update q : full_size q -> full_size (update q).
Proof. unfold full_size. intros H. rewrite update_closed. cbn [q_S]. by rewrite length_swap. Qed.

Lemma full_size_crush_step v q : 0 <= v < 128 -> full_size q -> full_size (crush_step v q).
Proof.
  unfold full_size, crush_step. intros _ H. case_match; [|done].
  cbn [set_S q_S]. by rewrite length_swap.
Qed.

Lemma full_size_nibble_swap q x :
  0 <= x < 16 -> full_size q ->
  full_size (set_S (swap (q_S q) (q_a q mod 256) (128 + x)) q).
Proof. unfold full_size. intros _ H. cbn [set_S q_S]. by rewrite length_swap. Qed.

Lemma full_size_bump_w q : full_size q -> full_size (bump_w q).
Proof. done. Qed.

Lemma full_size_set_a v q : full_size q -> full_size (set_a v q).
Proof. done. Qed.

Lemma full_size_set_z v q : full_size q -> full_size (set_z v q).
Proof. done. Qed.

Create HintDb spritz.
#[global] Hint Resolve perm_update perm_crush_step perm_nibble_swap perm_bump_w
  perm_set_a perm_set_z perm_init : spritz.
#[global] Hint Resolve odd_w_update odd_w_crush_step odd_w_nibble_swap odd_w_bump_w
  odd_w_set_a odd_w_set_z odd_w_init : spritz.
#[global] Hint Resolve full_size_update full_size_crush_step full_size_nibble_swap
  full_size_bump_w full_size_set_a full_size_set_z : spritz.

(** Closes the side conditions of the rules of Section Invariant. *)
Ltac by_invariant lem P := apply (lem P); eauto with spritz.

Lemma q_a_shuffle q : q_a (shuffle q) = 0.
Proof. by rewrite shuffle_closed. Qed.

(** ** [crush] sorts each pair of mirrored cells *)

Lemma crush_step_ordered n q :
  0 <= n < 128 -> full_size q -> pairs_ordered n (q_S q) ->
  pairs_ordered (n + 1) (q_S (crush_step n q)).
Proof.
  unfold full_size, pairs_ordered, crush_step. intros Hn Hlen Hord v Hv.
  destruct (rd (q_S q) n >? rd (q_S q) (255 - n)) eqn:E.
  - cbn [set_S q_S]. rewrite !rd_swap by lia. apply Z.gtb_lt in E.
    destruct (decide (v = n)) as [->|Hne].
    + repeat case_decide; lia.
    + assert (Hvn : rd (q_S q) v <= rd (q_S q) (255 - v)) by (apply Hord; lia).
      repeat case_decide; lia.
  - destruct (decide (v = n)) as [->|Hne].
    + pose proof (Zgt_cases (rd (q_S q) n) (rd (q_S q) (255 - n))) as Hc.
      by rewrite E in Hc.
    + apply Hord. lia.
Qed.

Lemma crush_ordered q : full_size q -> pairs_ordered 128 (q_S (crush q)).
Proof.
  intros Hlen. rewrite crush_closed.
  apply (for_loop_invariant (fun v acc => full_size acc /\ pairs_ordered v (q_S acc)));
    [lia | | ].
  - split; [done|]. intros v Hv. lia.
  - intros v acc Hv [Hfull Hord]. split.
    + by apply full_size_crush_step.
    + by apply crush_step_ordered.
Qed.

Lemma crush_step_fixed v q :
  0 <= v < 128 -> pairs_ordered 128 (q_S q) -> crush_step v q = q.
Proof.
  intros Hv Hord. unfold crush_step.
  pose proof (Zgt_cases (rd (q_S q) v) (rd (q_S q) (255 - v))) as Hc.
  destruct (rd (q_S q) v >? rd (q_S q) (255 - v)); [|done].
  specialize (Hord v Hv). lia.
Qed.

Lemma crush_fixed q : pairs_ordered 128 (q_S q) -> crush q = q.
Proof.
  intros Hord. rewrite crush_closed.
  apply (for_loop_preserves (fun acc => acc = q)); [done|].
  intros v acc Hv ->. by apply crush_step_fixed.
Qed.

(** ** Running the model

    The test vectors of the Spritz paper for the input "ABC": the first eight
    bytes of the 32-byte hash are 02 8F A2 B4 8B 93 4A 18 and the first eight
    bytes of the key stream are 77 9A 8E 01 F9 E9 CB C0. *)

Example hash_ABC :
  exists rest,
    minspritz_hash junk_state [65; 66; 67] 3 32 (junk_block 32) =
      Return (Block ([2; 143; 162; 180; 139; 147; 74; 24] ++ rest)).
Proof. eexists. vm_compute. reflexivity. Qed.

Example stream_ABC :
  exists rest,
    minminspritz_stream junk_state [65; 66; 67] 3 (junk_block 32) =
      Return (Block ([119; 154; 142; 1; 249; 233; 203; 192] ++ rest)).
Proof. eexists. vm_compute. reflexivity. Qed.

(** * The claims *)

(** C1.  One call of [update] is one step: [i] becomes [i + w]; then [j]
    becomes [k + S[(j + S[i]) mod 256]]; then [k] becomes
    [i + k + S[j mod 256]]; then the cells [S[i mod 256]] and [S[j mod 256]]
    are exchanged; each of the three sums is reduced modulo 256, and [z], [a],
    [w] and every other cell of [S] stay as they were.  No other function
    assigns [i], [j] or [k]: [crush] and [output] leave the triple alone, and
    the triple after [absorb_nibble], [absorb_stop], [whip], [shuffle],
    [drip], [absorb] and [squeeze] is the one left by the calls of [update]
    they make (directly or through one another). *)
Theorem C1_update_one_step (q : minspritz_s) (x r : Z) (bytes buf : list Z) :
  length (q_S q) = 256%nat ->
  let i' := (q_i q + q_w q) mod 256 in
  let j' := (q_k q + rd (q_S q) ((q_j q + rd (q_S q) i') mod 256)) mod 256 in
  let k' := (i' + q_k q + rd (q_S q) (j' mod 256)) mod 256 in
  (q_i (update q) = i' /\ q_j (update q) = j' /\ q_k (update q) = k' /\
   exchanged (q_S q) (q_S (update q)) (i' mod 256) (j' mod 256) /\
   q_z (update q) = q_z q /\ q_a (update q) = q_a q /\ q_w (update q) = q_w q) /\
  (ijk (crush q) = ijk q /\
   ijk (fst (output q)) = ijk q /\
   ijk (absorb_nibble q x) = ijk (shuffle_if_full q) /\
   ijk (absorb_stop q) = ijk (shuffle_if_full q) /\
   ijk (whip q r) = ijk (Nat.iter (Z.to_nat r) update q) /\
   ijk (shuffle q) = ijk (whip (crush (whip (crush (whip q 512)) 512)) 512) /\
   ijk (fst (drip q)) = ijk (update (shuffle_if_pending q)) /\
   ijk (absorb q bytes (Z.of_nat (length bytes))) =
     ijk (fold_left absorb_nibble (nibbles bytes) q) /\
   ijk (fst (squeeze q r (Block buf))) =
     ijk (after_drips (Z.to_nat r) (shuffle_if_pending q))).
Proof.
  intros Hlen i' j' k'.
  assert (Hi : 0 <= i' < 256) by (apply Z.mod_pos_bound; lia).
  assert (Hj : 0 <= j' < 256) by (apply Z.mod_pos_bound; lia).
  split.
  - rewrite update_closed. cbv zeta. fold i'. fold j'.
    cbn [q_i q_j q_k q_z q_a q_w q_S].
    unfold k'. rewrite !(Z.mod_small j'), !(Z.mod_small i') by lia.
    split_and!; try reflexivity.
    apply swap_exchanged; lia.
  - split_and!.
    + apply ijk_crush.
    + rewrite output_closed. apply ijk_set_z.
    + rewrite absorb_nibble_closed. cbv zeta. by rewrite ijk_set_a, ijk_set_S.
    + rewrite absorb_stop_closed. apply ijk_set_a.
    + rewrite whip_closed. apply ijk_set_w.
    + rewrite shuffle_closed. apply ijk_set_a.
    + rewrite drip_closed, output_closed. apply ijk_set_z.
    + by rewrite absorb_nibbles.
    + by rewrite squeeze_state.
Qed.

(** C1 at a struct of 256 cells. *)
Lemma C1_update_one_step_witness :
  length (q_S junk_state) = 256%nat /\
  q_i (update junk_state) = (q_i junk_state + q_w junk_state) mod 256.
Proof.
  split; [reflexivity|].
  exact (proj1 (proj1 (C1_update_one_step junk_state 0 0 [] [] eq_refl))).
Defined.

(** C2.  In every reachable state (after [initialise_state] and any finite
    sequence of calls of [update], [output], [crush], [whip], [shuffle],
    [absorb_nibble], [absorb], [absorb_stop], [drip] and [squeeze]) the array
    [S] is a bijection on {0..255}: 256 cells, each value 0..255 exactly once.
    And each single call of [update], [crush], [absorb_nibble] (on a nibble)
    and [shuffle], from any state whose [S] is a bijection, leaves a
    bijection. *)
Theorem C2_permutation_invariant (q : minspritz_s) :
  (reachable q -> bijection (q_S q)) /\
  (bijection (q_S q) ->
     bijection (q_S (update q)) /\
     bijection (q_S (crush q)) /\
     (forall x, 0 <= x < 16 -> bijection (q_S (absorb_nibble q x))) /\
     bijection (q_S (shuffle q))).
Proof.
  split.
  - intros Hq. apply perm_bijection. by_invariant inv_reachable perm.
  - intros Hq%bijection_perm. split_and!; [| | intros x Hx |]; apply perm_bijection.
    + by apply perm_update.
    + by_invariant inv_crush perm.
    + by_invariant inv_absorb_nibble perm.
    + by_invariant inv_shuffle perm.
Qed.

(** C2 at the state reached by absorbing three bytes and squeezing two. *)
Lemma C2_permutation_invariant_witness :
  let q := exec (call_squeeze 2 (junk_block 2))
             (exec (call_absorb [65; 66; 67] 3) (initialise_state junk_state)) in
  reachable q /\ bijection (q_S q).
Proof.
  intros q.
  assert (Hq : reachable q).
  { repeat (apply reachable_call; [|cbn; first [exact I | lia | reflexivity]]).
    apply reachable_init. reflexivity. }
  split; [exact Hq | exact (proj1 (C2_permutation_invariant q) Hq)].
Defined.

(** C3.  [absorb] takes the input bytes in order and, for each byte [b],
    calls [absorb_nibble] on the low nibble [b & 0x0F] and then on the high
    nibble [(b >> 4) & 0x0F].  [absorb_nibble x], for [x] in 0..15, first
    calls [shuffle] exactly when [a] is 128, then exchanges the cells
    [S[a mod 256]] and [S[128 + x]], then adds 1 to [a] (as a byte, so 255
    would become 0; from any [a] below 255 the result is [a + 1]); the other
    fields are those left by the conditional [shuffle]. *)
Theorem C3_absorb_nibble_order (q : minspritz_s) (bytes : list Z) (x : Z) :
  0 <= x < 16 ->
  length (q_S q) = 256%nat ->
  absorb q bytes (Z.of_nat (length bytes)) =
    fold_left absorb_nibble
      (flat_map (fun b => [Z.land b 15; Z.land (Z.shiftr b 4) 15]) bytes) q /\
  let q1 := if q_a q =? 128 then shuffle q else q in
  let q' := absorb_nibble q x in
  exchanged (q_S q1) (q_S q') (q_a q1 mod 256) (128 + x) /\
  q_a q' = (q_a q1 + 1) mod 256 /\
  (0 <= q_a q < 255 -> q_a q' = q_a q1 + 1) /\
  q_i q' = q_i q1 /\ q_j q' = q_j q1 /\ q_k q' = q_k q1 /\
  q_z q' = q_z q1 /\ q_w q' = q_w q1.
Proof.
  intros Hx Hlen. split; [apply absorb_nibbles|].
  intros q1 q'.
  assert (Hlen1 : length (q_S q1) = 256%nat).
  { change (full_size (shuffle_if_full q)). by_invariant inv_shuffle_if_full full_size. }
  assert (Hq' : q' = set_a ((q_a q1 + 1) mod 256)
                       (set_S (swap (q_S q1) (q_a q1 mod 256) (128 + x)) q1))
    by apply absorb_nibble_closed.
  rewrite Hq'. cbn [set_a set_S q_i q_j q_k q_z q_a q_w q_S].
  split_and!; try reflexivity.
  - apply swap_exchanged; [|lia]. rewrite Hlen1.
    pose proof (Z.mod_pos_bound (q_a q1) 256). lia.
  - intros Ha. apply Z.mod_small. subst q1.
    destruct (q_a q =? 128) eqn:E; [rewrite q_a_shuffle|]; lia.
Qed.

(** C3 at a full struct ([a] = 128, so the nibble is absorbed after a
    shuffle) and the input "AB". *)
Lemma C3_absorb_nibble_order_witness :
  let q := set_a 128 initial_state in
  0 <= 5 < 16 /\ length (q_S q) = 256%nat /\
  absorb q [65; 66] 2 = fold_left absorb_nibble [1; 4; 2; 4] q.
Proof.
  intros q. split; [lia|]. split; [reflexivity|].
  exact (proj1 (C3_absorb_nibble_order q [65; 66] 5 ltac:(lia) eq_refl)).
Defined.

(** C4.  [shuffle] is the fixed sequence [whip(512); crush(); whip(512);
    crush(); whip(512); a = 0], and each [whip(512)] is 512 calls of [update]
    followed by [w += 2]: three rounds of 512 steps with two [crush]
    rounds between them, in this order. *)
Theorem C4_shuffle_sequence (q : minspritz_s) :
  shuffle q = set_a 0 (whip (crush (whip (crush (whip q 512)) 512)) 512) /\
  shuffle q =
    set_a 0 (bump_w (Nat.iter 512 update
      (crush (bump_w (Nat.iter 512 update
        (crush (bump_w (Nat.iter 512 update q)))))))) /\
  q_a (shuffle q) = 0 /\
  whip q 512 = set_w ((q_w q + 2) mod 256) (Nat.iter 512 update q).
Proof.
  split_and!.
  - apply shuffle_closed.
  - rewrite shuffle_closed, !whip_closed. reflexivity.
  - apply q_a_shuffle.
  - apply (whip_steps q 512).
Qed.

(** C5.  [w] is odd at every observable point.  [initialise_state] sets [w]
    to 1; [whip(r)] is [r] calls of [update] followed by [w += 2] modulo 256;
    no other function assigns [w] ([update], [crush] and [output] leave it
    alone, and [shuffle], [absorb_nibble], [absorb_stop], [drip], [absorb]
    and [squeeze] change it only through the [whip] calls they make, directly
    or through one another); so [w] is odd in every reachable state, and a
    [whip] call from an odd [w] leaves an odd [w]. *)
Theorem C5_w_stays_odd (q : minspritz_s) (r x : Z) (bytes buf : list Z) :
  q_w (initialise_state q) = 1 /\
  whip q r = set_w ((q_w q + 2) mod 256) (Nat.iter (Z.to_nat r) update q) /\
  q_w (whip q r) = (q_w q + 2) mod 256 /\
  (q_w (update q) = q_w q /\
   q_w (crush q) = q_w q /\
   q_w (fst (output q)) = q_w q /\
   q_w (shuffle q) = q_w (whip (whip (whip q 512) 512) 512) /\
   q_w (absorb_nibble q x) = q_w (shuffle_if_full q) /\
   q_w (absorb_stop q) = q_w (shuffle_if_full q) /\
   q_w (fst (drip q)) = q_w (shuffle_if_pending q) /\
   q_w (absorb q bytes (Z.of_nat (length bytes))) =
     q_w (fold_left absorb_nibble (nibbles bytes) q) /\
   q_w (fst (squeeze q r (Block buf))) =
     q_w (after_drips (Z.to_nat r) (shuffle_if_pending q))) /\
  (Z.odd (q_w q) = true -> Z.odd (q_w (whip q r)) = true) /\
  (reachable q -> Z.odd (q_w q) = true).
Proof.
  split_and!.
  - apply initialise_state_regs.
  - apply whip_steps.
  - apply q_w_whip.
  - apply q_w_update.
  - apply q_w_crush.
  - rewrite output_closed. apply q_w_set_z.
  - rewrite shuffle_closed, q_w_set_a.
    repeat (rewrite q_w_whip || rewrite q_w_crush). reflexivity.
  - rewrite absorb_nibble_closed. cbv zeta. by rewrite q_w_set_a, q_w_set_S.
  - rewrite absorb_stop_closed. apply q_w_set_a.
  - rewrite drip_closed, output_closed. cbv zeta. cbn [fst].
    by rewrite q_w_set_z, q_w_update.
  - by rewrite absorb_nibbles.
  - by rewrite squeeze_state.
  - intros Hodd. by rewrite q_w_whip, odd_plus_2_mod.
  - intros Hq. change (odd_w q). by_invariant inv_reachable odd_w.
Qed.

(** C5 at the state reached by a hash of "ABC" up to its squeeze. *)
Lemma C5_w_stays_odd_witness :
  let q := exec (call_squeeze 4 (junk_block 4))
             (exec (call_absorb [4] 1)
                (exec call_absorb_stop
                   (exec (call_absorb [65; 66; 67] 3)
                      (initialise_state junk_state)))) in
  reachable q /\ Z.odd (q_w q) = true.
Proof.
  intros q.
  assert (Hq : reachable q).
  { repeat (apply reachable_call; [|cbn; first [exact I | lia | reflexivity]]).
    apply reachable_init. reflexivity. }
  split; [exact Hq|].
  exact (proj2 (proj2 (proj2 (proj2 (proj2 (C5_w_stays_odd q 0 0 [] []))))) Hq).
Defined.

(** C6, as stated, fails: the stream entry point has no length argument and
    its result is not of a caller-chosen length.  On the key "ABC" it cannot
    return, for every requested length [n], a block of [n] bytes. *)
Lemma C6_stream_length_counterexample :
  ~ (forall n : nat, exists out,
       minminspritz_stream junk_state [65; 66; 67] 3 (junk_block 32) =
         Return (Block out) /\ length out = n).
Proof.
  intros H. destruct (H 16%nat) as (out & Hout & Hlen).
  vm_compute in Hout. injection Hout as <-. discriminate Hlen.
Qed.

(** C6, amended.  The stream entry point takes a key only.  For every key it
    runs [initialise_state], [absorb] on the key, then [squeeze] for 32 bytes,
    and (the allocation succeeding) returns exactly 32 bytes: the first 32
    drips of the state that absorbed the key. *)
Theorem C6_stream_32_bytes (q : minspritz_s) (key buf : list Z) :
  length (q_S q) = 256%nat ->
  length buf = 32%nat ->
  let len := Z.of_nat (length key) in
  minminspritz_stream q key len (Block buf) =
    snd (squeeze (absorb (initialise_state q) key len) 32 (Block buf)) /\
  exists out,
    minminspritz_stream q key len (Block buf) = Return (Block out) /\
    length out = 32%nat /\
    out = drips 32 (shuffle_if_pending (fold_left absorb_nibble (nibbles key) initial_state)).
Proof.
  intros Hq Hbuf len. split; [reflexivity|].
  unfold minminspritz_stream.
  rewrite initialise_state_closed by done.
  unfold len. rewrite absorb_nibbles, squeeze_bytes by done.
  eexists. split; [reflexivity|]. split; [apply length_drips | reflexivity].
Qed.

(** C6 (amended) on the key "ABC". *)
Lemma C6_stream_32_bytes_witness :
  length (q_S junk_state) = 256%nat /\
  length (replicate 32 85) = 32%nat /\
  exists out,
    minminspritz_stream junk_state [65; 66; 67] 3 (Block (replicate 32 85)) =
      Return (Block out) /\ length out = 32%nat.
Proof.
  split; [reflexivity|]. split; [reflexivity|].
  destruct (proj2 (C6_stream_32_bytes junk_state [65; 66; 67] (replicate 32 85)
                     eq_refl eq_refl)) as (out & Hout & Hlen & _).
  exists out. split; [exact Hout | exact Hlen].
Defined.

(** C7, as stated, fails: when the allocation fails [squeeze] reports nothing.
    Asked for 0 bytes it returns the null pointer; asked for 32 bytes it
    stores its first byte through the null pointer. *)
Lemma C7_squeeze_null_counterexample :
  snd (squeeze initial_state 0 NULL) = Return NULL /\
  snd (squeeze initial_state 32 NULL) = NullStore.
Proof. split; vm_compute; reflexivity. Qed.

(** C7, amended.  [squeeze] does not test the pointer that [malloc] returns
    and has no allocation-failure result.  When the allocation fails and
    [r <= 0], it returns the null pointer as it is, having done its pending
    shuffle.  When the allocation fails and [r > 0], it goes on as if it had a
    block: it runs its pending shuffle and the first [drip], and stores that
    byte through the null pointer (undefined in C); nothing is reported.
    When the allocation succeeds, it returns the block with each of its [r]
    bytes overwritten, in order, by the next [drip]: exactly [r] bytes, none
    of the block's old contents, never a shorter result. *)
Theorem C7_squeeze_no_allocation_error (q : minspritz_s) (r : Z) (buf : list Z) :
  (r <= 0 -> squeeze q r NULL = (shuffle_if_pending q, Return NULL)) /\
  (0 < r ->
   squeeze q r NULL = (fst (drip (shuffle_if_pending q)), NullStore)) /\
  (length buf = Z.to_nat r ->
   squeeze q r (Block buf) =
     (after_drips (Z.to_nat r) (shuffle_if_pending q),
      Return (Block (drips (Z.to_nat r) (shuffle_if_pending q)))) /\
   length (drips (Z.to_nat r) (shuffle_if_pending q)) = Z.to_nat r).
Proof.
  split_and!.
  - intros Hr. rewrite squeeze_NULL.
    destruct (0 <? r) eqn:E; [|done]. apply Z.ltb_lt in E. lia.
  - intros Hr. rewrite squeeze_NULL.
    destruct (0 <? r) eqn:E; [done|]. apply Z.ltb_ge in E. lia.
  - intros Hlen. split; [by apply squeeze_bytes | apply length_drips].
Qed.

(** C7 (amended) at a request for 0 bytes and at one for 3 bytes, with the
    allocation failing and succeeding. *)
Lemma C7_squeeze_no_allocation_error_witness :
  0 <= 0 /\
  squeeze initial_state 0 NULL = (shuffle_if_pending initial_state, Return NULL) /\
  0 < 3 /\
  squeeze initial_state 3 NULL =
    (fst (drip (shuffle_if_pending initial_state)), NullStore) /\
  length (replicate 3 85) = Z.to_nat 3 /\
  squeeze initial_state 3 (Block (replicate 3 85)) =
    (after_drips (Z.to_nat 3) (shuffle_if_pending initial_state),
     Return (Block (drips (Z.to_nat 3) (shuffle_if_pending initial_state)))).
Proof.
  split; [lia|]. split.
  { exact (proj1 (C7_squeeze_no_allocation_error initial_state 0 []) ltac:(lia)). }
  split; [lia|]. split.
  { exact (proj1 (proj2 (C7_squeeze_no_allocation_error initial_state 3 []))
             ltac:(lia)). }
  split; [reflexivity|].
  exact (proj1 (proj2 (proj2 (C7_squeeze_no_allocation_error initial_state 3
                                (replicate 3 85))) eq_refl)).
Defined.

(** C8.  One call of [output] assigns only [z]: [i], [j], [k], [a], [w] and
    [S] are unchanged; the byte returned is the new [z], which is
    [S[(j + S[(i + S[(z + k) mod 256]) mod 256]) mod 256]], the three lookups
    nested in this order. *)
Theorem C8_output_only_z (q : minspritz_s) :
  let b :=
    rd (q_S q)
       ((q_j q + rd (q_S q)
                   ((q_i q + rd (q_S q) ((q_z q + q_k q) mod 256)) mod 256))
        mod 256) in
  snd (output q) = q_z (fst (output q)) /\
  q_z (fst (output q)) = b /\
  q_i (fst (output q)) = q_i q /\
  q_j (fst (output q)) = q_j q /\
  q_k (fst (output q)) = q_k q /\
  q_a (fst (output q)) = q_a q /\
  q_w (fst (output q)) = q_w q /\
  q_S (fst (output q)) = q_S q.
Proof. rewrite output_closed. cbv zeta. by split_and!. Qed.

(** C9.  [minspritz_hash] is deterministic: two calls on the same message
    [m] and output length [r] return the same bytes, whatever the two stack
    frames and the two allocated blocks held before (the only things a prior
    call could have left behind); the result is a block of [r] bytes that is
    a function of [(m, r)] alone.  The same holds of the outcome when the
    allocation fails in both calls. *)
Theorem C9_hash_deterministic (q1 q2 : minspritz_s) (m : list Z) (r : Z)
    (buf1 buf2 : list Z) :
  length (q_S q1) = 256%nat ->
  length (q_S q2) = 256%nat ->
  length buf1 = Z.to_nat r ->
  length buf2 = Z.to_nat r ->
  let len := Z.of_nat (length m) in
  minspritz_hash q1 m len r (Block buf1) = minspritz_hash q2 m len r (Block buf2) /\
  minspritz_hash q1 m len r NULL = minspritz_hash q2 m len r NULL /\
  exists out,
    minspritz_hash q1 m len r (Block buf1) = Return (Block out) /\
    length out = Z.to_nat r /\
    out = drips (Z.to_nat r)
            (shuffle_if_pending
               (absorb (absorb_stop (absorb initial_state m len)) [r] 1)).
Proof.
  intros Hq1 Hq2 Hb1 Hb2 len. unfold minspritz_hash.
  rewrite !initialise_state_closed by done.
  rewrite !squeeze_bytes by done. cbn [snd].
  split_and!; [reflexivity | reflexivity |].
  eexists. split; [reflexivity|]. split; [apply length_drips | reflexivity].
Qed.

(** C9 on the message "ABC" and 32 bytes, from two different stack frames
    and two different blocks. *)
Lemma C9_hash_deterministic_witness :
  length (q_S junk_state) = 256%nat /\
  length (q_S initial_state) = 256%nat /\
  length (replicate 32 85) = Z.to_nat 32 /\
  length (replicate 32 0) = Z.to_nat 32 /\
  minspritz_hash junk_state [65; 66; 67] 3 32 (Block (replicate 32 85)) =
  minspritz_hash initial_state [65; 66; 67] 3 32 (Block (replicate 32 0)).
Proof.
  split; [reflexivity|]. split; [reflexivity|].
  split; [reflexivity|]. split; [reflexivity|].
  exact (proj1 (C9_hash_deterministic junk_state initial_state [65; 66; 67] 32
                  (replicate 32 85) (replicate 32 0)
                  eq_refl eq_refl eq_refl eq_refl)).
Defined.

(** C10.  [crush] is idempotent.  After one call, [S[v] <= S[255 - v]] for
    every [v] in 0..127; hence a second call finds no pair to exchange (each
    of its 128 iterations leaves the state as it is) and [crush] applied
    twice gives the state [crush] applied once gives. *)
Theorem C10_crush_idempotent (q : minspritz_s) :
  length (q_S q) = 256%nat ->
  (forall v, 0 <= v < 128 -> rd (q_S (crush q)) v <= rd (q_S (crush q)) (255 - v)) /\
  (forall v, 0 <= v < 128 -> crush_step v (crush q) = crush q) /\
  crush (crush q) = crush q.
Proof.
  intros Hlen. pose proof (crush_ordered q Hlen) as Hord.
  split_and!.
  - exact Hord.
  - intros v Hv. by apply crush_step_fixed.
  - by apply crush_fixed.
Qed.

(** C10 at a struct whose array is in descending order, so that the first
    [crush] exchanges every pair. *)
Lemma C10_crush_idempotent_witness :
  let q := set_S (reverse (seqZ 0 256)) initial_state in
  length (q_S q) = 256%nat /\ crush q <> q /\ crush (crush q) = crush q.
Proof.
  intros q. split; [reflexivity|]. split.
  - intros Heq. apply (f_equal (fun s => rd (q_S s) 0)) in Heq.
    vm_compute in Heq. discriminate.
  - exact (proj2 (proj2 (C10_crush_idempotent q eq_refl))).
Defined.

(** * Further properties of the engine *)

(** ** The range of the fields *)

Lemma perm_Forall_byte q : perm q -> Forall byte (q_S q).
Proof. unfold perm. intros ->. apply Forall_byte_seqZ. Qed.

Lemma byte_rd_perm q p : perm q -> byte (rd (q_S q) p).
Proof.
  intros Hq. unfold rd.
  destruct (q_S q !! Z.to_nat p) as [y|] eqn:E; cbn [default].
  - eapply Forall_lookup_1; [by apply perm_Forall_byte | exact E].
  - unfold byte; lia.
Qed.

Lemma byte_mod x : byte (x mod 256).
Proof. unfold byte. apply Z.mod_pos_bound. lia. Qed.

(** Exposes the fields of a struct built by the setters. *)
Ltac typed_fields :=
  unfold typed, perm in *;
  cbn [set_i set_j set_k set_z set_a set_w set_S q_i q_j q_k q_z q_a q_w q_S] in *.

Lemma typed_update q : typed q -> typed (update q).
Proof.
  intros (Hi & Hj & Hk & Hz & Ha & Hw & Hp).
  pose proof (perm_update q Hp) as Hp'.
  revert Hp'. unfold typed, perm. rewrite update_closed. cbv zeta.
  cbn [q_i q_j q_k q_z q_a q_w q_S]. intros Hp'.
  split_and!; auto using byte_mod; lia.
Qed.

Lemma typed_iter_update n q : typed q -> typed (Nat.iter n update q).
Proof.
  intros Hq. induction n as [|n IH]; [done|].
  rewrite Nat.iter_succ. by apply typed_update.
Qed.

Lemma typed_set_S l q : typed q -> l ≡ₚ seqZ 0 256 -> typed (set_S l q).
Proof.
  intros (Hi & Hj & Hk & Hz & Ha & Hw & Hp) Hl. typed_fields.
  split_and!; try done; lia.
Qed.

Lemma typed_crush q : typed q -> typed (crush q).
Proof.
  intros Hq. rewrite crush_only_S. apply typed_set_S; [done|].
  change (perm (crush q)). destruct Hq as (_ & _ & _ & _ & _ & _ & Hp).
  by_invariant inv_crush perm.
Qed.

Lemma typed_bump_w q : typed q -> typed (bump_w q).
Proof.
  intros (Hi & Hj & Hk & Hz & Ha & Hw & Hp). unfold bump_w. typed_fields.
  split_and!; try done; try lia. apply byte_mod.
Qed.

Lemma typed_whip q r : typed q -> typed (whip q r).
Proof. intros Hq. rewrite whip_closed. by apply typed_bump_w, typed_iter_update. Qed.

Lemma typed_reset_a q : typed q -> typed (set_a 0 q).
Proof.
  intros (Hi & Hj & Hk & Hz & Ha & Hw & Hp). typed_fields.
  split_and!; try done; lia.
Qed.

Lemma typed_shuffle q : typed q -> typed (shuffle q).
Proof.
  intros Hq. rewrite shuffle_closed.
  apply typed_reset_a, typed_whip, typed_crush, typed_whip, typed_crush, typed_whip.
  exact Hq.
Qed.

Lemma typed_shuffle_if_full q :
  typed q -> typed (shuffle_if_full q) /\ q_a (shuffle_if_full q) <= 127.
Proof.
  intros Hq. unfold shuffle_if_full.
  destruct (q_a q =? 128) eqn:E.
  - split; [by apply typed_shuffle | rewrite q_a_shuffle; lia].
  - split; [done|]. apply Z.eqb_neq in E.
    destruct Hq as (_ & _ & _ & _ & Ha & _). lia.
Qed.

Lemma typed_shuffle_if_pending q :
  typed q -> typed (shuffle_if_pending q) /\ q_a (shuffle_if_pending q) = 0.
Proof.
  intros Hq. unfold shuffle_if_pending.
  pose proof (Zgt_cases (q_a q) 0) as Hc.
  destruct (q_a q >? 0).
  - split; [by apply typed_shuffle | apply q_a_shuffle].
  - split; [done|]. destruct Hq as (_ & _ & _ & _ & Ha & _). lia.
Qed.

Lemma typed_nibble_step q x :
  0 <= x < 16 -> typed q -> q_a q <= 127 ->
  typed (nibble_step q x) /\ q_a (nibble_step q x) = q_a q + 1.
Proof.
  intros Hx (Hi & Hj & Hk & Hz & Ha & Hw & Hp) Hlt.
  pose proof (perm_nibble_swap q x Hx Hp) as Hp'.
  unfold nibble_step, typed, perm in *.
  cbn [set_a set_S q_i q_j q_k q_z q_a q_w q_S] in *.
  rewrite (Z.mod_small (q_a q + 1)) by lia.
  split_and!; try done; lia.
Qed.

Lemma absorb_nibble_step q x :
  absorb_nibble q x = nibble_step (shuffle_if_full q) x.
Proof. apply absorb_nibble_closed. Qed.

Lemma typed_absorb_nibble q x :
  0 <= x < 16 -> typed q ->
  typed (absorb_nibble q x) /\ 1 <= q_a (absorb_nibble q x).
Proof.
  intros Hx Hq. rewrite absorb_nibble_step.
  destruct (typed_shuffle_if_full q Hq) as [Hq1 Ha1].
  destruct (typed_nibble_step (shuffle_if_full q) x Hx Hq1 Ha1) as [Hq2 Ha2].
  split; [done|]. destruct Hq1 as (_ & _ & _ & _ & Ha & _). lia.
Qed.

Lemma typed_absorb q i i_len : typed q -> typed (absorb q i i_len).
Proof.
  intros Hq. unfold absorb. apply for_loop_preserves; [done|].
  intros v acc _ Hacc. unfold LOW, HIGH.
  apply typed_absorb_nibble; [apply nibble_range|].
  apply typed_absorb_nibble; [apply nibble_range | done].
Qed.

Lemma typed_absorb_stop q : typed q -> typed (absorb_stop q).
Proof.
  intros Hq. rewrite absorb_stop_closed. cbv zeta.
  destruct (typed_shuffle_if_full q Hq) as [(Hi & Hj & Hk & Hz & Ha & Hw & Hp) Ha1].
  unfold typed, perm in *. cbn [set_a q_i q_j q_k q_z q_a q_w q_S].
  rewrite Z.mod_small by lia. split_and!; try done; lia.
Qed.

Lemma typed_output q : typed q -> typed (fst (output q)) /\ byte (snd (output q)).
Proof.
  intros (Hi & Hj & Hk & Hz & Ha & Hw & Hp). rewrite output_closed. cbv zeta.
  rewrite fst_of_pair, snd_of_pair.
  split; [|by apply byte_rd_perm].
  unfold typed, perm in *. cbn [set_z q_i q_j q_k q_z q_a q_w q_S].
  split_and!; try done; try lia. by apply byte_rd_perm.
Qed.

Lemma typed_drip q : typed q -> typed (fst (drip q)) /\ byte (snd (drip q)).
Proof.
  intros Hq. rewrite drip_closed.
  apply typed_output, typed_update. by apply typed_shuffle_if_pending.
Qed.

Lemma typed_squeeze q r p : typed q -> typed (fst (squeeze q r p)).
Proof.
  intros Hq. destruct (typed_shuffle_if_pending q Hq) as [Hq1 _].
  destruct p as [|buf].
  - rewrite squeeze_NULL. case_match; rewrite fst_of_pair; [|done].
    by apply typed_drip.
  - rewrite squeeze_Block. cbv zeta. rewrite fst_of_pair.
    apply (for_loop_preserves (fun acc => typed (fst acc))).
    + by rewrite fst_of_pair.
    + intros v acc _ Hacc. rewrite fst_squeeze_step. by apply typed_drip.
Qed.

Lemma typed_initial_state : typed initial_state.
Proof.
  unfold typed, byte, perm. cbn [initial_state q_i q_j q_k q_z q_a q_w q_S].
  split_and!; try lia. reflexivity.
Qed.

Lemma typed_exec c q : valid_call c -> typed q -> typed (exec c q).
Proof.
  intros Hc Hq. destruct c.
  - by apply typed_update.
  - by apply typed_output.
  - by apply typed_crush.
  - by apply typed_whip.
  - by apply typed_shuffle.
  - by apply typed_absorb_nibble.
  - by apply typed_absorb.
  - by apply typed_absorb_stop.
  - by apply typed_drip.
  - by apply typed_squeeze.
Qed.

Lemma typed_reachable q : reachable q -> typed q.
Proof.
  induction 1 as [q Hlen | c q Hq IH Hc].
  - rewrite initialise_state_closed by done. apply typed_initial_state.
  - by apply typed_exec.
Qed.

(** X1.  In every reachable state the fields [i], [j], [k], [z] and [w] hold
    bytes, every cell of [S] holds a byte, and the counter [a] is in 0..128:
    the increment of [a] never wraps.  Hence [absorb_nibble], called on a
    nibble in a reachable state, exchanges a cell of the lower half
    ([a] below 128) with a cell of the upper half, and leaves a counter in
    1..128. *)
Theorem X1_reachable_ranges (q : minspritz_s) (x : Z) :
  reachable q ->
  0 <= x < 16 ->
  (byte (q_i q) /\ byte (q_j q) /\ byte (q_k q) /\ byte (q_z q) /\ byte (q_w q) /\
   Forall byte (q_S q) /\ 0 <= q_a q <= 128) /\
  (0 <= q_a (shuffle_if_full q) < 128 /\
   q_a (absorb_nibble q x) = q_a (shuffle_if_full q) + 1 /\
   q_S (absorb_nibble q x) =
     swap (q_S (shuffle_if_full q)) (q_a (shuffle_if_full q)) (128 + x)).
Proof.
  intros Hq%typed_reachable Hx.
  destruct (typed_shuffle_if_full q Hq) as [Hq1 Ha1].
  destruct (typed_nibble_step _ x Hx Hq1 Ha1) as [_ Ha2].
  assert (Hlo : 0 <= q_a (shuffle_if_full q))
    by (destruct Hq1 as (_ & _ & _ & _ & Ha & _); lia).
  split.
  - destruct Hq as (Hi & Hj & Hk & Hz & Ha & Hw & Hp).
    split_and!; try done; try lia. by apply perm_Forall_byte.
  - rewrite absorb_nibble_step. split_and!; [done | lia | done |].
    unfold nibble_step. cbn [set_a set_S q_S].
    by rewrite Z.mod_small by lia.
Qed.

(** X1 after absorbing "ABC". *)
Lemma X1_reachable_ranges_witness :
  let q := exec (call_absorb [65; 66; 67] 3) (initialise_state junk_state) in
  reachable q /\ 0 <= 5 < 16 /\ 0 <= q_a q <= 128.
Proof.
  intros q.
  assert (Hq : reachable q).
  { apply reachable_call; [|cbn; lia]. apply reachable_init. reflexivity. }
  split; [exact Hq|]. split; [lia|].
  exact (proj2 (proj2 (proj2 (proj2 (proj2 (proj2
           (proj1 (X1_reachable_ranges q 5 Hq ltac:(lia))))))))).
Defined.

(** ** Squeezing *)

Lemma q_a_update q : q_a (update q) = q_a q.
Proof. by rewrite update_closed. Qed.

Lemma q_a_set_z v q : q_a (set_z v q) = q_a q.
Proof. reflexivity. Qed.

Lemma q_a_step q : q_a (fst (step q)) = q_a q.
Proof.
  unfold step. rewrite output_closed. cbv zeta.
  by rewrite fst_of_pair, q_a_set_z, q_a_update.
Qed.

Lemma shuffle_if_pending_0 q : q_a q = 0 -> shuffle_if_pending q = q.
Proof. intros Ha. unfold shuffle_if_pending. by rewrite Ha. Qed.

Lemma q_a_shuffle_if_pending q : 0 <= q_a q -> q_a (shuffle_if_pending q) = 0.
Proof.
  intros Ha. unfold shuffle_if_pending.
  pose proof (Zgt_cases (q_a q) 0) as Hc.
  destruct (q_a q >? 0); [apply q_a_shuffle | lia].
Qed.

Lemma drip_step q : q_a q = 0 -> drip q = step q.
Proof. intros Ha. rewrite drip_closed. by rewrite shuffle_if_pending_0. Qed.

Lemma q_a_after_drips n q : q_a q = 0 -> q_a (after_drips n q) = 0.
Proof.
  intros Ha. induction n as [|n IH]; [done|].
  rewrite after_drips_succ, drip_step by done. by rewrite q_a_step.
Qed.

Lemma drips_unfold n q :
  drips (S n) q = snd (drip q) :: drips n (fst (drip q)).
Proof. cbn [drips]. by destruct (drip q). Qed.

Lemma steps_unfold n q :
  steps (S n) q = snd (step q) :: steps n (fst (step q)).
Proof. cbn [steps]. by destruct (step q). Qed.

Lemma drips_steps n q : q_a q = 0 -> drips n q = steps n q.
Proof.
  revert q. induction n as [|n IH]; intros q Ha; [done|].
  rewrite drips_unfold, steps_unfold, drip_step by done.
  rewrite IH; [done|]. by rewrite q_a_step.
Qed.

Lemma after_drips_add n m q :
  after_drips (n + m) q = after_drips m (after_drips n q).
Proof.
  unfold after_drips. rewrite Nat.add_comm. apply Nat.iter_add.
Qed.

Lemma drips_add n m q :
  drips (n + m) q = drips n q ++ drips m (after_drips n q).
Proof.
  revert q. induction n as [|n IH]; intros q; [done|].
  rewrite Nat.add_succ_l, !drips_unfold, IH, after_drips_succ_r. done.
Qed.

(** X2.  [squeeze] shuffles at most once, up front.  From a state whose
    counter is not negative, the [r] bytes it returns are those of [r]
    successive [update(q); output(q)] pairs run after the conditional
    shuffle: the test [a > 0] of every [drip] inside the loop is false.  The
    counter is 0 when [squeeze] returns. *)
Theorem X2_squeeze_shuffles_once (q : minspritz_s) (r : Z) (buf : list Z) :
  0 <= q_a q ->
  length buf = Z.to_nat r ->
  snd (squeeze q r (Block buf)) =
    Return (Block (steps (Z.to_nat r) (shuffle_if_pending q))) /\
  q_a (fst (squeeze q r (Block buf))) = 0 /\
  (forall n, drip (after_drips n (shuffle_if_pending q)) =
             output (update (after_drips n (shuffle_if_pending q)))).
Proof.
  intros Ha Hlen. pose proof (q_a_shuffle_if_pending q Ha) as Ha0.
  rewrite squeeze_bytes by done. rewrite fst_of_pair, snd_of_pair.
  split_and!.
  - by rewrite drips_steps.
  - by apply q_a_after_drips.
  - intros n. apply drip_step. by apply q_a_after_drips.
Qed.

(** X2 at a state with 5 nibbles pending. *)
Lemma X2_squeeze_shuffles_once_witness :
  0 <= q_a junk_state /\
  length (replicate 3 85) = Z.to_nat 3 /\
  q_a (fst (squeeze junk_state 3 (Block (replicate 3 85)))) = 0.
Proof.
  split; [cbn; lia|]. split; [reflexivity|].
  exact (proj1 (proj2 (X2_squeeze_shuffles_once junk_state 3 (replicate 3 85)
                         ltac:(cbn; lia) eq_refl))).
Defined.

(** X3.  Squeezing in two calls gives the bytes of one call: from a state
    whose counter is not negative, [squeeze] for [r1] bytes followed by
    [squeeze] for [r2] bytes on the state it left returns, one after the
    other, the [r1 + r2] bytes of a single [squeeze], and leaves the same
    state. *)
Theorem X3_squeeze_in_two_calls (q : minspritz_s) (r1 r2 : Z) (b1 b2 b : list Z) :
  0 <= q_a q -> 0 <= r1 -> 0 <= r2 ->
  length b1 = Z.to_nat r1 -> length b2 = Z.to_nat r2 ->
  length b = Z.to_nat (r1 + r2) ->
  exists o1 o2,
    squeeze q r1 (Block b1) = (fst (squeeze q r1 (Block b1)), Return (Block o1)) /\
    squeeze (fst (squeeze q r1 (Block b1))) r2 (Block b2) =
      (fst (squeeze q (r1 + r2) (Block b)), Return (Block o2)) /\
    snd (squeeze q (r1 + r2) (Block b)) = Return (Block (o1 ++ o2)) /\
    length o1 = Z.to_nat r1 /\ length o2 = Z.to_nat r2.
Proof.
  intros Ha Hr1 Hr2 H1 H2 H12.
  pose proof (q_a_shuffle_if_pending q Ha) as Ha0.
  set (q1 := shuffle_if_pending q) in *.
  assert (Hmid : shuffle_if_pending (after_drips (Z.to_nat r1) q1) =
                 after_drips (Z.to_nat r1) q1)
    by (apply shuffle_if_pending_0; by apply q_a_after_drips).
  exists (drips (Z.to_nat r1) q1), (drips (Z.to_nat r2) (after_drips (Z.to_nat r1) q1)).
  rewrite !(squeeze_bytes q) by done. fold q1.
  rewrite !fst_of_pair, snd_of_pair.
  rewrite squeeze_bytes by done. rewrite Hmid.
  rewrite Z2Nat.inj_add by done.
  rewrite after_drips_add, drips_add, !length_drips. done.
Qed.

(** X3 at 2 bytes, then 3. *)
Lemma X3_squeeze_in_two_calls_witness :
  0 <= q_a junk_state /\ 0 <= 2 /\ 0 <= 3 /\
  length (replicate 2 85) = Z.to_nat 2 /\ length (replicate 3 85) = Z.to_nat 3 /\
  length (replicate 5 85) = Z.to_nat (2 + 3) /\
  exists o1 o2,
    snd (squeeze junk_state (2 + 3) (Block (replicate 5 85))) =
      Return (Block (o1 ++ o2)) /\
    length o1 = Z.to_nat 2 /\ length o2 = Z.to_nat 3.
Proof.
  split; [cbn; lia|]. split; [lia|]. split; [lia|].
  split; [reflexivity|]. split; [reflexivity|]. split; [reflexivity|].
  destruct (X3_squeeze_in_two_calls junk_state 2 3 (replicate 2 85) (replicate 3 85)
              (replicate 5 85) ltac:(cbn; lia) ltac:(lia) ltac:(lia)
              eq_refl eq_refl eq_refl) as (o1 & o2 & _ & _ & H & Hl1 & Hl2).
  exists o1, o2. split; [exact H|]. split; [exact Hl1 | exact Hl2].
Defined.

(** ** Absorbing *)

Lemma absorb_take q (i : list Z) i_len :
  0 <= i_len <= Z.of_nat (length i) ->
  absorb q i i_len = fold_left absorb_nibble (nibbles (take (Z.to_nat i_len) i)) q.
Proof.
  intros Hlen. unfold absorb.
  apply (for_loop_invariant (fun v acc =>
    acc = fold_left absorb_nibble (nibbles (take (Z.to_nat v) i)) q)).
  - lia.
  - done.
  - intros v acc Hv ->.
    replace (Z.to_nat (v + 1)) with (S (Z.to_nat v)) by lia.
    rewrite (take_S_r i (Z.to_nat v) (rd i v)) by (apply rd_lookup; lia).
    rewrite nibbles_app, fold_left_app. reflexivity.
Qed.

(** X4.  [absorb] is incremental and reads only what it is told to: the
    state after absorbing [m1 ++ m2] is the state after absorbing [m1] and
    then [m2]; a call with [i_len] within the array depends on the first
    [i_len] bytes only; and a call with [i_len <= 0] leaves the state as it
    is. *)
Theorem X4_absorb_incremental (q : minspritz_s) (m1 m2 i : list Z) (i_len : Z) :
  absorb q (m1 ++ m2) (Z.of_nat (length (m1 ++ m2))) =
    absorb (absorb q m1 (Z.of_nat (length m1))) m2 (Z.of_nat (length m2)) /\
  (0 <= i_len <= Z.of_nat (length i) ->
   absorb q i i_len = absorb q (take (Z.to_nat i_len) i) i_len) /\
  (i_len <= 0 -> absorb q i i_len = q).
Proof.
  split_and!.
  - by rewrite !absorb_nibbles, nibbles_app, fold_left_app.
  - intros Hlen. rewrite absorb_take by done.
    rewrite (absorb_take q (take _ i)).
    + by rewrite take_take, Nat.min_id.
    + rewrite length_take. lia.
  - intros Hle. unfold absorb. by apply for_loop_nonpos.
Qed.

(** X4 at 2 bytes of a 3-byte array, and at length 0. *)
Lemma X4_absorb_incremental_witness :
  0 <= 2 <= Z.of_nat (length [65; 66; 67]) /\
  absorb initial_state [65; 66; 67] 2 = absorb initial_state [65; 66] 2 /\
  0 <= 0 /\ absorb initial_state [65; 66; 67] 0 = initial_state.
Proof.
  split; [cbn; lia|]. split.
  - exact (proj1 (proj2 (X4_absorb_incremental initial_state [] [] [65; 66; 67] 2))
             ltac:(cbn; lia)).
  - split; [lia|].
    exact (proj2 (proj2 (X4_absorb_incremental initial_state [] [] [65; 66; 67] 0))
             ltac:(lia)).
Defined.

(** X5.  A request for no bytes: with [r <= 0], [squeeze] runs its pending
    shuffle and returns the pointer [malloc] gave, null or not, without
    storing anything through it; so [minspritz_hash] with output length 0
    returns that pointer, whatever the message. *)
Theorem X5_squeeze_nothing (q : minspritz_s) (r : Z) (p : pointer)
    (m : list Z) (m_len : Z) :
  (r <= 0 -> squeeze q r p = (shuffle_if_pending q, Return p)) /\
  minspritz_hash q m m_len 0 p = Return p.
Proof.
  assert (H : forall q' r', r' <= 0 ->
                squeeze q' r' p = (shuffle_if_pending q', Return p)).
  { intros q' r' Hr. destruct p as [|buf].
    - rewrite squeeze_NULL. destruct (0 <? r') eqn:E; [|done].
      apply Z.ltb_lt in E. lia.
    - rewrite squeeze_Block. cbv zeta. by rewrite for_loop_nonpos. }
  split; [apply H|].
  unfold minspritz_hash. rewrite H by lia. apply snd_of_pair.
Qed.

(** X5 at a request for 0 bytes and an allocated block that [malloc(0)] may
    give. *)
Lemma X5_squeeze_nothing_witness :
  0 <= 0 /\ squeeze initial_state 0 (Block []) = (shuffle_if_pending initial_state, Return (Block [])).
Proof.
  split; [lia|].
  exact (proj1 (X5_squeeze_nothing initial_state 0 (Block []) [] 0) ltac:(lia)).
Defined.

(** ** [crush] in closed form *)

Lemma crush_step_min_max n q (l : list Z) :
  0 <= n < 128 -> full_size q ->
  (forall v, 0 <= v < n ->
     rd (q_S q) v = Z.min (rd l v) (rd l (255 - v)) /\
     rd (q_S q) (255 - v) = Z.max (rd l v) (rd l (255 - v))) ->
  (forall v, n <= v < 128 ->
     rd (q_S q) v = rd l v /\ rd (q_S q) (255 - v) = rd l (255 - v)) ->
  (forall v, 0 <= v < n + 1 ->
     rd (q_S (crush_step n q)) v = Z.min (rd l v) (rd l (255 - v)) /\
     rd (q_S (crush_step n q)) (255 - v) = Z.max (rd l v) (rd l (255 - v))) /\
  (forall v, n + 1 <= v < 128 ->
     rd (q_S (crush_step n q)) v = rd l v /\
     rd (q_S (crush_step n q)) (255 - v) = rd l (255 - v)).
Proof.
  unfold full_size. intros Hn Hlen Hdone Htodo.
  destruct (Htodo n ltac:(lia)) as [Hn1 Hn2].
  unfold crush_step.
  pose proof (Zgt_cases (rd (q_S q) n) (rd (q_S q) (255 - n))) as Hc.
  destruct (rd (q_S q) n >? rd (q_S q) (255 - n)).
  - cbn [set_S q_S]. split; intros v Hv; rewrite !rd_swap by lia.
    + destruct (decide (v = n)) as [->|Hne].
      * repeat case_decide; lia.
      * destruct (Hdone v ltac:(lia)) as [H1 H2]. repeat case_decide; lia.
    + destruct (Htodo v ltac:(lia)) as [H1 H2]. repeat case_decide; lia.
  - split; intros v Hv.
    + destruct (decide (v = n)) as [->|Hne]; [lia|]. apply Hdone. lia.
    + apply Htodo. lia.
Qed.

Lemma crush_min_max q v :
  full_size q -> 0 <= v < 128 ->
  rd (q_S (crush q)) v = Z.min (rd (q_S q) v) (rd (q_S q) (255 - v)) /\
  rd (q_S (crush q)) (255 - v) = Z.max (rd (q_S q) v) (rd (q_S q) (255 - v)).
Proof.
  intros Hlen Hv. rewrite crush_closed.
  assert (Hinv : full_size (for_loop 128 crush_step q) /\
    (forall v, 0 <= v < 128 ->
       rd (q_S (for_loop 128 crush_step q)) v =
         Z.min (rd (q_S q) v) (rd (q_S q) (255 - v)) /\
       rd (q_S (for_loop 128 crush_step q)) (255 - v) =
         Z.max (rd (q_S q) v) (rd (q_S q) (255 - v))) /\
    (forall v, 128 <= v < 128 ->
       rd (q_S (for_loop 128 crush_step q)) v = rd (q_S q) v /\
       rd (q_S (for_loop 128 crush_step q)) (255 - v) = rd (q_S q) (255 - v))).
  { apply (for_loop_invariant (fun n acc =>
      full_size acc /\
      (forall v, 0 <= v < n ->
         rd (q_S acc) v = Z.min (rd (q_S q) v) (rd (q_S q) (255 - v)) /\
         rd (q_S acc) (255 - v) = Z.max (rd (q_S q) v) (rd (q_S q) (255 - v))) /\
      (forall v, n <= v < 128 ->
         rd (q_S acc) v = rd (q_S q) v /\
         rd (q_S acc) (255 - v) = rd (q_S q) (255 - v)))).
    - lia.
    - split; [done|]. split; [intros; lia | done].
    - intros n acc Hn (Hfull & Hdone & Htodo). split.
      + by apply full_size_crush_step.
      + by apply crush_step_min_max. }
  destruct Hinv as (_ & Hdone & _). by apply Hdone.
Qed.

(** X6.  [crush] in closed form: for every [v] in 0..127 the cell [v] gets
    the smaller and the cell [255 - v] the larger of the two values the pair
    held; in particular no value is lost or written twice. *)
Theorem X6_crush_min_max (q : minspritz_s) (v : Z) :
  length (q_S q) = 256%nat ->
  0 <= v < 128 ->
  rd (q_S (crush q)) v = Z.min (rd (q_S q) v) (rd (q_S q) (255 - v)) /\
  rd (q_S (crush q)) (255 - v) = Z.max (rd (q_S q) v) (rd (q_S q) (255 - v)) /\
  length (q_S (crush q)) = 256%nat.
Proof.
  intros Hlen Hv. destruct (crush_min_max q v Hlen Hv) as [Hmin Hmax].
  split_and!; [done | done |].
  change (full_size (crush q)). by_invariant inv_crush full_size.
Qed.

(** X6 at the pair (3, 252) of an array in descending order. *)
Lemma X6_crush_min_max_witness :
  let q := set_S (reverse (seqZ 0 256)) initial_state in
  length (q_S q) = 256%nat /\ 0 <= 3 < 128 /\
  rd (q_S (crush q)) 3 = Z.min (rd (q_S q) 3) (rd (q_S q) (255 - 3)).
Proof.
  intros q. split; [reflexivity|]. split; [lia|].
  exact (proj1 (X6_crush_min_max q 3 eq_refl ltac:(lia))).
Defined.

(** ** What a shuffle leaves *)

Lemma q_z_update q : q_z (update q) = q_z q.
Proof. by rewrite update_closed. Qed.

Lemma q_z_iter_update n q : q_z (Nat.iter n update q) = q_z q.
Proof. induction n as [|n IH]; [done|]. by rewrite Nat.iter_succ, q_z_update. Qed.

Lemma q_z_set_w v q : q_z (set_w v q) = q_z q.
Proof. reflexivity. Qed.

Lemma q_z_set_a v q : q_z (set_a v q) = q_z q.
Proof. reflexivity. Qed.

Lemma q_z_whip q r : q_z (whip q r) = q_z q.
Proof. rewrite whip_closed. unfold bump_w. by rewrite q_z_set_w, q_z_iter_update. Qed.

Lemma q_z_crush q : q_z (crush q) = q_z q.
Proof. by rewrite crush_only_S. Qed.

Lemma q_i_update q : q_i (update q) = (q_i q + q_w q) mod 256.
Proof. by rewrite update_closed. Qed.

Lemma q_i_set_w v q : q_i (set_w v q) = q_i q.
Proof. reflexivity. Qed.

Lemma q_i_set_a v q : q_i (set_a v q) = q_i q.
Proof. reflexivity. Qed.

Lemma q_i_crush q : q_i (crush q) = q_i q.
Proof. by rewrite crush_only_S. Qed.

(** After [n] steps the cursor [i] has advanced by [n * w]. *)
Lemma q_i_iter_update n q :
  q_i (Nat.iter n update q) mod 256 = (q_i q + Z.of_nat n * q_w q) mod 256.
Proof.
  induction n as [|n IH].
  - cbn [Nat.iter nat_rect]. f_equal. lia.
  - rewrite Nat.iter_succ, q_i_update, q_w_iter_update, Z.mod_mod by lia.
    rewrite <- Zplus_mod_idemp_l, IH, Zplus_mod_idemp_l. f_equal. lia.
Qed.

Lemma q_i_whip_512 q : q_i (whip q 512) = q_i q mod 256.
Proof.
  rewrite whip_closed. unfold bump_w. rewrite q_i_set_w.
  change (Z.to_nat 512) with (S 511).
  rewrite Nat.iter_succ, q_i_update, q_w_iter_update.
  rewrite <- Zplus_mod_idemp_l, q_i_iter_update, Zplus_mod_idemp_l.
  change (Z.of_nat 511) with 511.
  replace (q_i q + 511 * q_w q + q_w q) with (q_i q + (2 * q_w q) * 256) by lia.
  apply Z.mod_add. lia.
Qed.

Lemma mod_add_again x a b : ((x + a) mod 256 + b) mod 256 = (x + (a + b)) mod 256.
Proof. rewrite Zplus_mod_idemp_l. f_equal. lia. Qed.

(** X7.  What [shuffle] leaves: [z] is unchanged, [a] is 0, [w] has advanced
    by 6 modulo 256, and the cursor [i] is back where it started (each
    [whip] of 512 steps advances it by 512 times [w], a multiple of 256): a
    byte in [i] is the same byte afterwards. *)
Theorem X7_shuffle_leaves (q : minspritz_s) :
  q_z (shuffle q) = q_z q /\
  q_a (shuffle q) = 0 /\
  q_w (shuffle q) = (q_w q + 6) mod 256 /\
  q_i (shuffle q) = q_i q mod 256 /\
  (0 <= q_i q < 256 -> q_i (shuffle q) = q_i q).
Proof.
  assert (Hi : q_i (shuffle q) = q_i q mod 256).
  { rewrite shuffle_closed, q_i_set_a.
    rewrite q_i_whip_512, q_i_crush, q_i_whip_512, q_i_crush, q_i_whip_512.
    by rewrite !Z.mod_mod by lia. }
  split_and!.
  - rewrite shuffle_closed, q_z_set_a.
    by rewrite q_z_whip, q_z_crush, q_z_whip, q_z_crush, q_z_whip.
  - apply q_a_shuffle.
  - rewrite shuffle_closed, q_w_set_a.
    rewrite q_w_whip, q_w_crush, q_w_whip, q_w_crush, q_w_whip.
    by rewrite !mod_add_again.
  - exact Hi.
  - intros Hb. rewrite Hi. by apply Z.mod_small.
Qed.

(** X7 at a state whose [i] is 7. *)
Lemma X7_shuffle_leaves_witness :
  0 <= q_i junk_state < 256 /\ q_i (shuffle junk_state) = q_i junk_state.
Proof.
  split; [cbn; lia|].
  exact (proj2 (proj2 (proj2 (proj2 (X7_shuffle_leaves junk_state)))) ltac:(cbn; lia)).
Defined.

(** ** The walk of the cursor [i] *)

Lemma odd_not_even w : Z.odd w = true -> ~ (2 | w).
Proof.
  intros Hodd [c Hc]. subst w. rewrite Z.odd_mul in Hodd.
  rewrite Bool.andb_comm in Hodd. discriminate Hodd.
Qed.

Lemma odd_coprime_256 w : Z.odd w = true -> Z.gcd 256 w = 1.
Proof.
  intros Hodd. change 256 with (2 ^ 8).
  apply Z.coprime_pow_l; [lia|].
  apply Z.coprime_prime_l; [apply Z.prime_2 | by apply odd_not_even].
Qed.

Lemma byte_q_i_iter_update n q :
  byte (q_i q) -> byte (q_i (Nat.iter n update q)).
Proof.
  intros Hi. destruct n as [|n]; [done|].
  rewrite Nat.iter_succ, q_i_update. apply byte_mod.
Qed.

(** X8.  Because [w] is odd, the cursor [i] visits every cell: over any 256
    consecutive calls of [update] (fewer than 256 steps apart) the values of
    [i] are pairwise different, so a [whip] of 512 steps passes [i] over each
    of the 256 cells exactly twice. *)
Theorem X8_cursor_visits_every_cell (q : minspritz_s) (n m : nat) :
  Z.odd (q_w q) = true ->
  0 <= q_i q < 256 ->
  (n < m < n + 256)%nat ->
  q_i (Nat.iter n update q) <> q_i (Nat.iter m update q).
Proof.
  intros Hodd Hi Hnm Heq.
  pose proof (byte_q_i_iter_update n q Hi) as Hbn.
  pose proof (byte_q_i_iter_update m q Hi) as Hbm.
  apply (f_equal (fun x => x mod 256)) in Heq. cbv beta in Heq.
  rewrite !q_i_iter_update in Heq.
  assert (Hdiv : (256 | q_w q * (Z.of_nat m - Z.of_nat n))).
  { apply Z.mod_divide; [lia|].
    replace (q_w q * (Z.of_nat m - Z.of_nat n))
      with ((q_i q + Z.of_nat m * q_w q) - (q_i q + Z.of_nat n * q_w q)) by lia.
    rewrite Zminus_mod, Heq, Z.sub_diag. done. }
  apply Z.gauss in Hdiv; [|by apply odd_coprime_256].
  destruct Hdiv as [c Hc]. lia.
Qed.

(** X8 at the initial state: the steps 0 and 255. *)
Lemma X8_cursor_visits_every_cell_witness :
  Z.odd (q_w initial_state) = true /\ 0 <= q_i initial_state < 256 /\
  (0 < 255 < 0 + 256)%nat /\
  q_i (Nat.iter 0 update initial_state) <> q_i (Nat.iter 255 update initial_state).
Proof.
  split; [reflexivity|]. split; [cbn; lia|]. split; [lia|].
  exact (X8_cursor_visits_every_cell initial_state 0 255 eq_refl
           ltac:(cbn; lia) ltac:(lia)).
Defined.

(** ** [update] loses nothing *)

Lemma swap_swap (l : list Z) p p' :
  0 <= p < Z.of_nat (length l) -> 0 <= p' < Z.of_nat (length l) ->
  swap (swap l p p') p p' = l.
Proof.
  intros Hp Hp'. apply list_eq. intros n.
  destruct (decide (n < length l)%nat) as [Hn|Hn].
  - rewrite <- (Nat2Z.id n).
    rewrite !rd_lookup by (rewrite ?length_swap; lia). f_equal.
    rewrite rd_swap by (rewrite ?length_swap; lia).
    rewrite !rd_swap by lia.
    repeat case_decide; congruence.
  - rewrite !lookup_ge_None_2; [done | lia | rewrite !length_swap; lia].
Qed.

Lemma mod_add_cancel a b c :
  byte a -> byte b -> (a + c) mod 256 = (b + c) mod 256 -> a = b.
Proof.
  unfold byte. intros Ha Hb H.
  assert (H' : (a + c - c) mod 256 = (b + c - c) mod 256)
    by (by rewrite <- Zminus_mod_idemp_l, H, Zminus_mod_idemp_l).
  replace (a + c - c) with a in H' by lia.
  replace (b + c - c) with b in H' by lia.
  by rewrite !Z.mod_small in H' by lia.
Qed.

Lemma rd_injective (l : list Z) x y :
  l ≡ₚ seqZ 0 256 -> 0 <= x < 256 -> 0 <= y < 256 -> rd l x = rd l y -> x = y.
Proof.
  intros Hl Hx Hy Heq. pose proof (length_of_perm l Hl) as Hlen.
  assert (Hnd : NoDup l) by (rewrite Hl; apply NoDup_seqZ).
  assert (Z.to_nat x = Z.to_nat y); [|lia].
  apply (NoDup_lookup l _ _ (rd l x) Hnd).
  - apply rd_lookup. lia.
  - rewrite Heq. apply rd_lookup. lia.
Qed.

(** X9.  [update] loses no information: on states that hold bytes and a
    permutation, two different states never step to the same state (the step
    can be undone: exchange the two cells back, then recover [k], [j] and [i]
    in this order). *)
Theorem X9_update_injective (q1 q2 : minspritz_s) :
  typed q1 -> typed q2 -> update q1 = update q2 -> q1 = q2.
Proof.
  intros (Hi1 & Hj1 & Hk1 & _ & _ & _ & Hp1) (Hi2 & Hj2 & Hk2 & _ & _ & _ & Hp2) H.
  rewrite !update_closed in H. cbv zeta in H.
  destruct q1 as [i1 j1 k1 z1 a1 w1 S1], q2 as [i2 j2 k2 z2 a2 w2 S2].
  unfold perm in *. cbn [q_i q_j q_k q_z q_a q_w q_S] in *.
  injection H as Hi Hj Hk Hz Ha Hw HS. subst z2 a2 w2.
  apply mod_add_cancel in Hi; [|done..]. subst i2.
  set (i' := (i1 + w1) mod 256) in *.
  assert (Hbi : 0 <= i' < 256) by (apply Z.mod_pos_bound; lia).
  rewrite <- Hj in HS, Hk.
  set (j' := (k1 + rd S1 ((j1 + rd S1 i') mod 256)) mod 256) in *.
  assert (Hbj : 0 <= j' < 256) by (apply Z.mod_pos_bound; lia).
  pose proof (length_of_perm S1 Hp1) as Hl1.
  pose proof (length_of_perm S2 Hp2) as Hl2.
  assert (HSeq : S1 = S2).
  { rewrite <- (swap_swap S1 i' j'), <- (swap_swap S2 i' j') by lia. by rewrite HS. }
  subst S2.
  assert (Hkeq : k1 = k2).
  { apply (mod_add_cancel k1 k2 (i' + rd S1 j')); [done..|].
    replace (k1 + (i' + rd S1 j')) with (i' + k1 + rd S1 j') by lia.
    replace (k2 + (i' + rd S1 j')) with (i' + k2 + rd S1 j') by lia.
    exact Hk. }
  subst k2.
  assert (Hjeq : j1 = j2).
  { unfold j' in Hj.
    rewrite !(Z.add_comm k1) in Hj.
    apply mod_add_cancel in Hj;
      [| apply (byte_rd_perm (mk_state 0 0 0 0 0 0 S1)); done..].
    apply rd_injective in Hj; [| done | apply Z.mod_pos_bound; lia..].
    by apply mod_add_cancel in Hj. }
  by subst j2.
Qed.

(** X9 at a state and itself. *)
Lemma X9_update_injective_witness :
  typed initial_state /\ update initial_state = update initial_state /\
  initial_state = initial_state.
Proof.
  assert (Ht : typed initial_state).
  { unfold typed, byte, perm. cbn. split_and!; try lia. reflexivity. }
  split; [exact Ht|]. split; [reflexivity|].
  exact (X9_update_injective initial_state initial_state Ht Ht eq_refl).
Defined.

(** ** When the entry points shuffle *)

Lemma absorb_app q (m1 m2 : list Z) :
  absorb q (m1 ++ m2) (Z.of_nat (length (m1 ++ m2))) =
    absorb (absorb q m1 (Z.of_nat (length m1))) m2 (Z.of_nat (length m2)).
Proof. by rewrite !absorb_nibbles, nibbles_app, fold_left_app. Qed.

Lemma absorb_one q b :
  absorb q [b] 1 = absorb_nibble (absorb_nibble q (LOW b)) (HIGH b).
Proof.
  change 1 with (Z.of_nat (length [b])). rewrite absorb_nibbles.
  cbn [nibbles flat_map app fold_left]. reflexivity.
Qed.

Lemma pending_after_absorb_one q b : typed q -> 1 <= q_a (absorb q [b] 1).
Proof.
  intros Hq. rewrite absorb_one. unfold LOW, HIGH.
  apply typed_absorb_nibble; [apply nibble_range|].
  apply typed_absorb_nibble; [apply nibble_range | done].
Qed.

Lemma pending_after_absorb q (m : list Z) :
  typed q -> m <> [] -> 1 <= q_a (absorb q m (Z.of_nat (length m))).
Proof.
  intros Hq Hne. destruct (exists_last Hne) as (m' & b & ->).
  rewrite absorb_app. change (Z.of_nat (length [b])) with 1.
  apply pending_after_absorb_one. by apply typed_absorb.
Qed.

Lemma shuffle_if_pending_pos q : 1 <= q_a q -> shuffle_if_pending q = shuffle q.
Proof.
  intros Ha. unfold shuffle_if_pending.
  pose proof (Zgt_cases (q_a q) 0) as Hc.
  destruct (q_a q >? 0); [done | lia].
Qed.

Lemma drips_after_shuffle n q : drips n (shuffle q) = steps n (shuffle q).
Proof. apply drips_steps, q_a_shuffle. Qed.

(** X10.  [minspritz_hash] always shuffles before it outputs: after the
    message, the stop and the length byte have been absorbed the counter is
    at least 1 (also for the empty message), so [squeeze] runs [shuffle]
    once and the digest is the bytes of [r] [update(q); output(q)] pairs
    after it. *)
Theorem X10_hash_shuffles_before_output (q : minspritz_s) (m : list Z)
    (m_len r : Z) (buf : list Z) :
  length (q_S q) = 256%nat ->
  length buf = Z.to_nat r ->
  let absorbed := absorb (absorb_stop (absorb initial_state m m_len)) [r] 1 in
  1 <= q_a absorbed <= 128 /\
  minspritz_hash q m m_len r (Block buf) =
    Return (Block (steps (Z.to_nat r) (shuffle absorbed))).
Proof.
  intros Hq Hbuf absorbed.
  assert (Hpre : typed (absorb_stop (absorb initial_state m m_len)))
    by apply typed_absorb_stop, typed_absorb, typed_initial_state.
  assert (Ha : 1 <= q_a absorbed) by (by apply pending_after_absorb_one).
  assert (Ht : typed absorbed) by (by apply typed_absorb).
  split.
  - destruct Ht as (_ & _ & _ & _ & Hrange & _). lia.
  - unfold minspritz_hash. rewrite initialise_state_closed by done.
    fold absorbed. rewrite squeeze_bytes, snd_of_pair by done.
    by rewrite shuffle_if_pending_pos, drips_after_shuffle.
Qed.

(** X10 on the empty message and 4 bytes. *)
Lemma X10_hash_shuffles_before_output_witness :
  length (q_S junk_state) = 256%nat /\
  length (replicate 4 85) = Z.to_nat 4 /\
  minspritz_hash junk_state [] 0 4 (Block (replicate 4 85)) =
    Return (Block (steps (Z.to_nat 4)
      (shuffle (absorb (absorb_stop (absorb initial_state [] 0)) [4] 1)))).
Proof.
  split; [reflexivity|]. split; [reflexivity|].
  exact (proj2 (X10_hash_shuffles_before_output junk_state [] 0 4 (replicate 4 85)
                  eq_refl eq_refl)).
Defined.

(** X11.  The stream entry point shuffles exactly when the key is not
    empty.  With the empty key nothing is absorbed, the counter stays 0 and
    the 32 bytes come from the identity permutation as [initialise_state]
    left it, with no mixing at all; with any other key [shuffle] runs once
    before the first byte. *)
Theorem X11_stream_empty_key (q : minspritz_s) (key buf : list Z) :
  length (q_S q) = 256%nat ->
  length buf = 32%nat ->
  minminspritz_stream q [] 0 (Block buf) = Return (Block (steps 32 initial_state)) /\
  (key <> [] ->
   minminspritz_stream q key (Z.of_nat (length key)) (Block buf) =
     Return (Block (steps 32
       (shuffle (absorb initial_state key (Z.of_nat (length key))))))).
Proof.
  intros Hq Hbuf. unfold minminspritz_stream.
  rewrite initialise_state_closed by done. split.
  - assert (H0 : absorb initial_state [] 0 = initial_state)
      by (unfold absorb; by apply for_loop_nonpos).
    rewrite H0, squeeze_bytes, snd_of_pair by done.
    rewrite shuffle_if_pending_0 by done.
    by rewrite drips_steps.
  - intros Hne. rewrite squeeze_bytes, snd_of_pair by done.
    rewrite shuffle_if_pending_pos
      by (apply pending_after_absorb; [apply typed_initial_state | done]).
    by rewrite drips_after_shuffle.
Qed.

(** X11 on the key "A". *)
Lemma X11_stream_empty_key_witness :
  length (q_S junk_state) = 256%nat /\
  length (replicate 32 85) = 32%nat /\
  [65] <> [] /\
  minminspritz_stream junk_state [65] (Z.of_nat (length [65])) (Block (replicate 32 85)) =
    Return (Block (steps 32
      (shuffle (absorb initial_state [65] (Z.of_nat (length [65])))))).
Proof.
  split; [reflexivity|]. split; [reflexivity|]. split; [discriminate|].
  exact (proj2 (X11_stream_empty_key junk_state [65] (replicate 32 85)
                  eq_refl eq_refl) ltac:(discriminate)).
Defined.

(** ** Absorbing while the counter has room *)

Lemma absorb_nibble_room q x :
  q_a q <> 128 -> absorb_nibble q x = nibble_step q x.
Proof.
  intros Ha. rewrite absorb_nibble_step. unfold shuffle_if_full.
  apply Z.eqb_neq in Ha. by rewrite Ha.
Qed.

Lemma nibble_step_fields q x :
  0 <= q_a q < 255 ->
  q_a (nibble_step q x) = q_a q + 1 /\ ijk (nibble_step q x) = ijk q /\
  q_z (nibble_step q x) = q_z q /\ q_w (nibble_step q x) = q_w q.
Proof.
  intros Ha. unfold nibble_step, ijk. cbn [set_a set_S q_i q_j q_k q_z q_a q_w].
  by rewrite Z.mod_small by lia.
Qed.

Lemma absorb_nibbles_room (l : list Z) q :
  0 <= q_a q -> q_a q + Z.of_nat (length l) <= 128 ->
  fold_left absorb_nibble l q = fold_left nibble_step l q /\
  q_a (fold_left nibble_step l q) = q_a q + Z.of_nat (length l) /\
  ijk (fold_left nibble_step l q) = ijk q /\
  q_z (fold_left nibble_step l q) = q_z q /\
  q_w (fold_left nibble_step l q) = q_w q.
Proof.
  revert q. induction l as [|x l IH]; intros q Ha Hroom.
  - cbn [fold_left length]. split_and!; try done. lia.
  - cbn [fold_left length] in *.
    destruct (nibble_step_fields q x ltac:(lia)) as (Ha1 & Hijk & Hz & Hw).
    rewrite absorb_nibble_room by lia.
    destruct (IH (nibble_step q x) ltac:(lia) ltac:(lia)) as (H1 & H2 & H3 & H4 & H5).
    split_and!; [done | lia | congruence..].
Qed.

Lemma length_nibbles (m : list Z) : length (nibbles m) = (2 * length m)%nat.
Proof.
  induction m as [|b m IH]; [done|].
  cbn [nibbles flat_map app length] in *. unfold nibbles in IH. lia.
Qed.

(** X12.  While the counter has room, absorbing only exchanges cells: if
    [a + 2 * len <= 128] (for instance up to 64 bytes after
    [initialise_state]), [absorb] on [len] bytes runs no [shuffle], hence no
    [update]: [i], [j], [k], [z] and [w] are unchanged, [a] has grown by
    [2 * len], and [S] has undergone one swap per nibble. *)
Theorem X12_absorb_with_room (q : minspritz_s) (m : list Z) :
  0 <= q_a q ->
  q_a q + 2 * Z.of_nat (length m) <= 128 ->
  let q' := absorb q m (Z.of_nat (length m)) in
  q' = fold_left nibble_step (nibbles m) q /\
  q_a q' = q_a q + 2 * Z.of_nat (length m) /\
  ijk q' = ijk q /\ q_z q' = q_z q /\ q_w q' = q_w q.
Proof.
  intros Ha Hroom q'. unfold q'. rewrite absorb_nibbles.
  destruct (absorb_nibbles_room (nibbles m) q Ha) as (H1 & H2 & H3 & H4 & H5).
  { rewrite length_nibbles. lia. }
  rewrite H1, H2, length_nibbles. split_and!; try done. lia.
Qed.

(** X12 at the initial state and the 64 bytes that fill the counter. *)
Lemma X12_absorb_with_room_witness :
  0 <= q_a initial_state /\
  q_a initial_state + 2 * Z.of_nat (length (replicate 64 255)) <= 128 /\
  q_a (absorb initial_state (replicate 64 255) (Z.of_nat (length (replicate 64 255)))) =
    q_a initial_state + 2 * Z.of_nat (length (replicate 64 255)).
Proof.
  split; [cbn; lia|]. split; [cbn; lia|].
  exact (proj1 (proj2 (X12_absorb_with_room initial_state (replicate 64 255)
                         ltac:(cbn; lia) ltac:(cbn; lia)))).
Defined.

(** ** The test driver *)

Lemma hex_value_digit d : 0 <= d < 16 -> hex_value (hex_digit d) = d.
Proof.
  intros Hd. rewrite <- (Z2Nat.id d) by lia.
  assert (Hn : (Z.to_nat d < 16)%nat) by lia.
  generalize dependent (Z.to_nat d). intros n Hn.
  do 16 (destruct n as [|n]; [reflexivity|]). lia.
Qed.

Lemma hex_digit_upper d : 0 <= d < 16 -> In (hex_digit d) hex_digits.
Proof. intros Hd. unfold hex_digit. apply nth_In. cbn. lia. Qed.

Lemma unhex_printf_02X x (rest : list ascii) :
  byte x -> unhex (printf_02X x ++ rest) = x :: unhex rest.
Proof.
  unfold byte. intros Hx. cbn [printf_02X app unhex].
  rewrite !hex_value_digit.
  - f_equal. pose proof (Z.div_mod x 16). lia.
  - apply Z.mod_pos_bound. lia.
  - split; [apply Z.div_pos; lia | apply Z.div_lt_upper_bound; lia].
Qed.

Lemma unhex_line (bytes : list Z) :
  Forall byte bytes -> unhex (flat_map printf_02X bytes) = bytes.
Proof.
  induction 1 as [|x l Hx Hl IH]; [done|].
  cbn [flat_map]. by rewrite unhex_printf_02X, IH.
Qed.

Lemma length_line (bytes : list Z) :
  length (flat_map printf_02X bytes) = (2 * length bytes)%nat.
Proof.
  induction bytes as [|x l IH]; [done|].
  cbn [flat_map printf_02X app length] in *. lia.
Qed.

Lemma upper_line (bytes : list Z) :
  Forall byte bytes -> Forall (fun c => In c hex_digits) (flat_map printf_02X bytes).
Proof.
  induction 1 as [|x l Hx Hl IH]; [constructor|].
  unfold byte in Hx. cbn [flat_map printf_02X app].
  constructor; [|constructor; [|done]]; apply hex_digit_upper.
  - split; [apply Z.div_pos; lia | apply Z.div_lt_upper_bound; lia].
  - apply Z.mod_pos_bound. lia.
Qed.

Lemma print_hex_closed (bytes : list Z) len (out : list ascii) :
  0 <= len <= Z.of_nat (length bytes) ->
  print_hex bytes len out =
    out ++ flat_map printf_02X (take (Z.to_nat len) bytes) ++ ["010"%char].
Proof.
  intros Hlen. unfold print_hex. rewrite app_assoc. f_equal.
  apply (for_loop_invariant (fun v acc =>
    acc = out ++ flat_map printf_02X (take (Z.to_nat v) bytes))).
  - lia.
  - cbn. by rewrite app_nil_r.
  - intros v acc Hv ->.
    replace (Z.to_nat (v + 1)) with (S (Z.to_nat v)) by lia.
    rewrite (take_S_r bytes (Z.to_nat v) (rd bytes v)) by (apply rd_lookup; lia).
    rewrite flat_map_app. cbn [flat_map]. by rewrite app_nil_r, app_assoc.
Qed.

(** X13.  [print_hex] writes one line that can be read back: after what the
    output held it appends two characters per byte and a newline, every
    character of the line is one of 0..9, A..F (upper case), and reading the
    digit pairs as hexadecimal numbers gives the bytes again. *)
Theorem X13_print_hex_round_trip (bytes : list Z) (out : list ascii) :
  Forall byte bytes ->
  exists digits,
    print_hex bytes (Z.of_nat (length bytes)) out = out ++ digits ++ ["010"%char] /\
    length digits = (2 * length bytes)%nat /\
    Forall (fun c => In c hex_digits) digits /\
    unhex digits = bytes.
Proof.
  intros Hb. exists (flat_map printf_02X bytes).
  rewrite print_hex_closed by lia. rewrite Nat2Z.id, firstn_all.
  split_and!; [done | apply length_line | by apply upper_line | by apply unhex_line].
Qed.

(** X13 on the bytes 0, 10, 171, 255. *)
Lemma X13_print_hex_round_trip_witness :
  Forall byte [0; 10; 171; 255] /\
  exists digits,
    print_hex [0; 10; 171; 255] 4 [] = digits ++ ["010"%char] /\
    unhex digits = [0; 10; 171; 255].
Proof.
  assert (Hb : Forall byte [0; 10; 171; 255])
    by (repeat constructor; unfold byte; lia).
  split; [exact Hb|].
  destruct (X13_print_hex_round_trip [0; 10; 171; 255] [] Hb)
    as (digits & Hout & _ & _ & Hback).
  exists digits. split; [exact Hout | exact Hback].
Defined.

Lemma length_steps n q : length (steps n q) = n.
Proof.
  revert q. induction n as [|n IH]; intros q; [done|].
  rewrite steps_unfold. cbn [length]. by rewrite IH.
Qed.

Lemma hash_digest32 q (arr : list Z) m_len (buf : list Z) :
  length (q_S q) = 256%nat -> length buf = 32%nat ->
  0 <= m_len <= Z.of_nat (length arr) ->
  minspritz_hash q arr m_len 32 (Block buf) =
    Return (Block (digest32 (take (Z.to_nat m_len) arr))).
Proof.
  intros Hq Hbuf Hlen. unfold minspritz_hash, digest32.
  rewrite initialise_state_closed by done.
  rewrite (absorb_nibbles initial_state (take (Z.to_nat m_len) arr)).
  rewrite <- (absorb_take initial_state arr m_len) by done.
  set (absorbed := absorb (absorb_stop (absorb initial_state arr m_len)) [32] 1).
  assert (Ha : 1 <= q_a absorbed).
  { apply pending_after_absorb_one, typed_absorb_stop, typed_absorb,
      typed_initial_state. }
  rewrite squeeze_bytes, snd_of_pair by done.
  rewrite shuffle_if_pending_pos, drips_after_shuffle by done.
  reflexivity.
Qed.

Lemma hash_NULL q (m : list Z) m_len r :
  0 < r -> minspritz_hash q m m_len r NULL = NullStore.
Proof.
  intros Hr. unfold minspritz_hash. rewrite squeeze_NULL.
  destruct (0 <? r) eqn:E; [apply snd_of_pair|].
  apply Z.ltb_ge in E. lia.
Qed.

Lemma length_print_hex_32 (res : list Z) (out : list ascii) :
  length res = 32%nat -> length (print_hex res 32 out) = (length out + 65)%nat.
Proof.
  intros Hres. rewrite print_hex_closed by lia.
  change (Z.to_nat 32) with 32%nat. rewrite <- Hres, firstn_all.
  rewrite !length_app, length_line, Hres. cbn [length]. lia.
Qed.

(** X14.  [main], when its three allocations succeed, prints three lines:
    the 32-byte digests of "ABC", "spam" and "arcfour" (the bytes before the
    terminating 0 of each array), each as 64 hexadecimal digits and a
    newline, 195 characters in all, whatever the stack and the blocks held
    before.  When the first allocation fails it prints nothing and stores
    through the null pointer. *)
Theorem X14_main_prints_three_digests (q1 q2 q3 : minspritz_s)
    (b1 b2 b3 : list Z) (p2 p3 : pointer) (out : list ascii) :
  length (q_S q1) = 256%nat -> length (q_S q2) = 256%nat ->
  length (q_S q3) = 256%nat ->
  length b1 = 32%nat -> length b2 = 32%nat -> length b3 = 32%nat ->
  (exists printed,
     main q1 q2 q3 (Block b1) (Block b2) (Block b3) out = Some printed /\
     printed =
       print_hex (digest32 [97; 114; 99; 102; 111; 117; 114]) 32
         (print_hex (digest32 [115; 112; 97; 109]) 32
            (print_hex (digest32 [65; 66; 67]) 32 out)) /\
     length printed = (length out + 195)%nat) /\
  main q1 q2 q3 NULL p2 p3 out = None.
Proof.
  intros Hq1 Hq2 Hq3 Hb1 Hb2 Hb3. split.
  - unfold main.
    change (strlen in1) with 3. change (strlen in2) with 4. change (strlen in3) with 7.
    rewrite !hash_digest32 by (done || (cbn; lia)).
    cbv zeta. eexists. split; [reflexivity|]. split; [reflexivity|].
    rewrite !length_print_hex_32 by apply length_steps. lia.
  - unfold main. rewrite hash_NULL by lia. reflexivity.
Qed.

(** X14 from junk on the stack and in the heap. *)
Lemma X14_main_prints_three_digests_witness :
  length (q_S junk_state) = 256%nat /\
  length (replicate 32 85) = 32%nat /\
  exists printed,
    main junk_state junk_state junk_state (Block (replicate 32 85))
      (Block (replicate 32 85)) (Block (replicate 32 85)) [] = Some printed /\
    length printed = 195%nat.
Proof.
  split; [reflexivity|]. split; [reflexivity|].
  destruct (proj1 (X14_main_prints_three_digests junk_state junk_state junk_state
                     (replicate 32 85) (replicate 32 85) (replicate 32 85)
                     NULL NULL [] eq_refl eq_refl eq_refl eq_refl eq_refl eq_refl))
    as (printed & Hmain & _ & Hlen).
  exists printed. split; [exact Hmain | exact Hlen].
Defined.

(** The program's output on its three inputs starts each line with the test
    vector of the Spritz paper: 02 8F A2 B4 8B 93 4A 18 for "ABC",
    AC BB A0 81 3F 30 0D 3A for "spam", FF 8C F2 68 09 4C 87 B9 for
    "arcfour". *)
Example main_output :
  exists printed,
    main junk_state junk_state junk_state
      (junk_block 32) (junk_block 32) (junk_block 32) [] = Some printed /\
    unhex (take 16 printed) = [2; 143; 162; 180; 139; 147; 74; 24] /\
    unhex (take 16 (drop 65 printed)) = [172; 187; 160; 129; 63; 48; 13; 58] /\
    unhex (take 16 (drop 130 printed)) = [255; 140; 242; 104; 9; 76; 135; 185].
Proof. eexists. split; [vm_compute; reflexivity|]. vm_compute. done. Qed.

(** ** The bytes that come out *)

Lemma typed_drips n q : typed q -> Forall byte (drips n q).
Proof.
  revert q. induction n as [|n IH]; intros q Hq; [constructor|].
  rewrite drips_unfold. destruct (typed_drip q Hq) as [Hq' Hb].
  constructor; [done | by apply IH].
Qed.

(** X15.  Every byte that [squeeze] returns is a byte: from a state that
    holds bytes and a permutation (every reachable state does), the block
    returned holds [r] values in 0..255, and the state left holds bytes and a
    permutation again. *)
Theorem X15_squeeze_returns_bytes (q : minspritz_s) (r : Z) (buf : list Z) :
  typed q ->
  length buf = Z.to_nat r ->
  exists out,
    snd (squeeze q r (Block buf)) = Return (Block out) /\
    length out = Z.to_nat r /\
    Forall byte out /\
    typed (fst (squeeze q r (Block buf))).
Proof.
  intros Hq Hlen. exists (drips (Z.to_nat r) (shuffle_if_pending q)).
  split_and!.
  - by rewrite squeeze_bytes.
  - apply length_drips.
  - by apply typed_drips, typed_shuffle_if_pending.
  - by apply typed_squeeze.
Qed.

(** X15 at the initial state and 3 bytes. *)
Lemma X15_squeeze_returns_bytes_witness :
  typed initial_state /\ length (replicate 3 85) = Z.to_nat 3 /\
  exists out,
    snd (squeeze initial_state 3 (Block (replicate 3 85))) = Return (Block out) /\
    Forall byte out.
Proof.
  assert (Ht : typed initial_state).
  { unfold typed, byte, perm. cbn. split_and!; try lia. reflexivity. }
  split; [exact Ht|]. split; [reflexivity|].
  destruct (X15_squeeze_returns_bytes initial_state 3 (replicate 3 85)
              Ht eq_refl) as (out & Hout & _ & Hb & _).
  exists out. split; [exact Hout | exact Hb].
Defined.
